(** * PyLGR: the SLSQP orchestration layer ([pylgr/optimize/_slsqp.py])

    A shallow embedding of [_minimize_slsqp], [_eval_constraint] and
    [_eval_con_normals], and the properties of the driver that the
    specification states.

    Conventions.
    - A Python [float] / NumPy [float64] is a [spec_float] of the standard
      library (IEEE 754 binary64 without NaN payloads); only comparisons
      are ever performed on them by the driver.
    - A Python [int] is a [Z]; array lengths are [nat]; NumPy's [int] is a
      64-bit C long.
    - A one-dimensional array is a [list float]; a two-dimensional array is
      a [matrix] carrying its column count, so that shape [(0, n)] exists.
    - NumPy functions follow their documented behaviour: [np.clip] is the
      broadcasting ufunc [minimum(maximum(x, lo), hi)], slices truncate,
      [np.zeros] refuses a negative length, stacking checks shapes.
    - Exceptions are the constructors of [exn]; a computation is the trace
      of the calls it made together with its [outcome].
    - The Fortran kernel [slsqp] is a parameter: a function on the cells it
      mutates in place. The user's objective, residual and Jacobian
      functions are total functions of the point.
    - Printing ([iprint], [disp]) is left out. *)

From Stdlib Require Import ZArith Bool String Ascii List Lia.
From Stdlib Require Import Floats.SpecFloat.
Import ListNotations.
Local Open Scope Z_scope.

Set Implicit Arguments.

(* ------------------------------------------------------------------ *)
(** ** Floats *)
(* ------------------------------------------------------------------ *)

Module F64.

Definition float := spec_float.

Definition prec : Z := 53.
Definition emax : Z := 1024.

(** The binary64 value of an integer literal such as [0.0], [10.0]. *)
Definition of_Z (z : Z) : float := binary_normalize prec emax z 0 false.

Definition zero : float := S754_zero false.
Definition inf : float := S754_infinity false.
Definition ninf : float := S754_infinity true.
Definition nan : float := S754_nan.

Definition isnan (f : float) : bool :=
  match f with S754_nan => true | _ => false end.

Definition isfinite (f : float) : bool :=
  match f with
  | S754_zero _ | S754_finite _ _ _ => true
  | _ => false
  end.

(** [a < b], [a <= b], [a > b] of IEEE comparison: false on NaN. *)
Definition ltb (a b : float) : bool := SFltb a b.
Definition leb (a b : float) : bool := SFleb a b.
Definition gtb (a b : float) : bool := SFltb b a.

(** NumPy's [clip] ufunc on one element:
    [min(max(x, lo), hi)] where [max(a, b) = isnan(a) ? a : (a > b ? a : b)]
    and [min(a, b) = isnan(a) ? a : (a < b ? a : b)]. *)
Definition np_max (a b : float) : float :=
  if isnan a then a else if gtb a b then a else b.
Definition np_min (a b : float) : float :=
  if isnan a then a else if ltb a b then a else b.
Definition clip1 (x lo hi : float) : float := np_min (np_max x lo) hi.

End F64.
Import F64.

(* ------------------------------------------------------------------ *)
(** ** Exceptions and outcomes *)
(* ------------------------------------------------------------------ *)

(** The Python exception classes the driver can raise. *)
Inductive pyclass :=
| KeyError | TypeError | ValueError | IndexError | OverflowError.

(** One constructor per raise site. *)
Inductive exn :=
| NoTypeDefined (ic : nat)          (* KeyError, 'Constraint %d has no type defined.' *)
| NotADictionary                    (* TypeError, 'Constraints must be defined using a dictionary.' *)
| TypeNotAString                    (* TypeError, "Constraint's type must be a string." *)
| UnknownType (ty : string)         (* ValueError, "Unknown constraint type '%s'." *)
| NoFunctionDefined (ic : nat)      (* ValueError, 'Constraint %d has no function defined.' *)
| BoundsLength                      (* IndexError, 'SLSQP Error: the length of bounds is not compatible with that of x0.' *)
| LbGtUb (bnderr : list bool)       (* ValueError, 'SLSQP Error: lb > ub in bounds %s.' *)
| Broadcast                         (* ValueError of NumPy: operands could not be broadcast together *)
| ShapeMismatch                     (* ValueError of NumPy: concatenated arrays disagree on a dimension *)
| NegativeDimensions                (* ValueError of NumPy: negative dimensions are not allowed *)
| IntTooLarge                       (* OverflowError of NumPy: Python int too large to convert to C long *)
| NoExitMode (mode : Z).            (* KeyError of the lookup [exit_modes[int(mode)]] *)

Definition class_of (e : exn) : pyclass :=
  match e with
  | NoTypeDefined _ => KeyError
  | NotADictionary => TypeError
  | TypeNotAString => TypeError
  | UnknownType _ => ValueError
  | NoFunctionDefined _ => ValueError
  | BoundsLength => IndexError
  | LbGtUb _ => ValueError
  | Broadcast => ValueError
  | ShapeMismatch => ValueError
  | NegativeDimensions => ValueError
  | IntTooLarge => OverflowError
  | NoExitMode _ => KeyError
  end.

(** The specification's ConfigurationError: the exceptions raised for a
    malformed constraint specification (lines 69-84). *)
Definition ConfigurationError (e : exn) : Prop :=
  match e with
  | NoTypeDefined _ | NotADictionary | TypeNotAString
  | UnknownType _ | NoFunctionDefined _ => True
  | _ => False
  end.

(** How a computation ends: with a value, with an exception, or not at all
    within the number of loop iterations it was given. *)
Inductive outcome (A : Type) : Type :=
| Ret (a : A)
| Raise (e : exn)
| OutOfFuel.
Arguments Ret {A} a.
Arguments Raise {A} e.
Arguments OutOfFuel {A}.

(* ------------------------------------------------------------------ *)
(** ** NumPy helpers *)
(* ------------------------------------------------------------------ *)

Module Np.

(** Two-dimensional array: [cols] is the second component of the shape,
    [rows] the list of rows (each of length [cols]). *)
Record matrix := Matrix { cols : nat; rows : list (list float) }.

Definition nrows (a : matrix) : nat := length (rows a).
Definition shape (a : matrix) : nat * nat := (nrows a, cols a).

(** What a residual function returns: a scalar or a vector. *)
Inductive residual :=
| Scalar (v : float)
| Vec (v : list float).

(** What a Jacobian function returns: a row or a matrix. *)
Inductive jacobian :=
| Row (v : list float)
| Mat (a : matrix).

(** [np.zeros(k)] and [np.zeros((r, c))]. *)
Definition zeros (k : nat) : list float := repeat zero k.
Definition zeros2 (r c : nat) : matrix := Matrix c (repeat (zeros c) r).

(** [np.zeros(len)] for a Python int: negative lengths raise. *)
Definition zerosZ (len : Z) : exn + list float :=
  if len <? 0 then inl NegativeDimensions else inr (zeros (Z.to_nat len)).

(** [np.atleast_1d]. *)
Definition atleast_1d (v : residual) : list float :=
  match v with
  | Scalar s => [s]
  | Vec l => l
  end.

(** [np.atleast_2d], as [np.vstack] applies it to each operand. *)
Definition atleast_2d (v : jacobian) : matrix :=
  match v with
  | Row l => Matrix (length l) [l]
  | Mat a => a
  end.

(** [np.vstack] of a non-empty sequence of 2-D arrays: all must agree on
    the number of columns. *)
Fixpoint vstack_from (c : nat) (acc : list (list float)) (l : list matrix)
  : exn + matrix :=
  match l with
  | [] => inr (Matrix c acc)
  | a :: l' =>
      if Nat.eqb (cols a) c then vstack_from c (acc ++ rows a) l'
      else inl ShapeMismatch
  end.

Definition vstack (l : list matrix) : exn + matrix :=
  match l with
  | [] => inl ShapeMismatch
  | a :: l' => vstack_from (cols a) (rows a) l'
  end.

(** [np.concatenate((a, b), 1)]: both must have the same number of rows. *)
Fixpoint zip_rows (ra rb : list (list float)) : list (list float) :=
  match ra, rb with
  | r :: ra', s :: rb' => (r ++ s) :: zip_rows ra' rb'
  | _, _ => []
  end.

Definition hstack2 (a b : matrix) : exn + matrix :=
  if Nat.eqb (nrows a) (nrows b)
  then inr (Matrix (cols a + cols b) (zip_rows (rows a) (rows b)))
  else inl ShapeMismatch.

(** Python slicing [l[lo:hi]] for non-negative [lo], [hi]: out-of-range
    ends are truncated. *)
Definition slice {A} (l : list A) (lo hi : nat) : list A :=
  firstn (hi - lo) (skipn lo l).

(** Python slicing with integer ends, negative ends counting from the
    back as Python does. *)
Definition norm_index (len : nat) (i : Z) : nat :=
  if i <? 0 then Z.to_nat (Z.max 0 (Z.of_nat len + i))
  else Nat.min len (Z.to_nat i).

Definition sliceZ {A} (l : list A) (lo hi : Z) : list A :=
  slice l (norm_index (length l) lo) (norm_index (length l) hi).

(** Element-wise [clip] with broadcasting of one-dimensional operands:
    equal lengths go element by element, a length-1 operand is stretched,
    anything else does not broadcast. The two bound arrays always have
    the same length, so they are kept as a list of pairs. *)
Fixpoint clip_zip (x : list float) (b : list (float * float)) : list float :=
  match x, b with
  | xi :: x', (lo, hi) :: b' => clip1 xi lo hi :: clip_zip x' b'
  | _, _ => []
  end.

Definition clip (x : list float) (b : list (float * float))
  : exn + list float :=
  if Nat.eqb (length x) (length b) then inr (clip_zip x b)
  else match b, x with
       | [(lo, hi)], _ => inr (map (fun xi => clip1 xi lo hi) x)
       | _, [x0] => inr (map (fun '(lo, hi) => clip1 x0 lo hi) b)
       | _, _ => inl Broadcast
       end.

End Np.

(** [x] is [x0] clamped into the bounds [b], component by component, an
    operand of length one standing for all components: [x[i]] is [clip] of
    its component of [x0] and its pair of [b], and lies between the two ends
    of the pair when they are ordered and the component is a number. *)
Definition clamped (x0 : list float) (b : list (float * float))
           (x : list float) : Prop :=
  forall i : nat, (i < length x)%nat ->
    let xi0 := nth (if Nat.eqb (length x0) 1 then 0%nat else i) x0 nan in
    let lo := fst (nth (if Nat.eqb (length b) 1 then 0%nat else i) b (nan, nan)) in
    let hi := snd (nth (if Nat.eqb (length b) 1 then 0%nat else i) b (nan, nan)) in
    nth i x nan = clip1 xi0 lo hi /\
    (isnan xi0 = false -> leb lo hi = true ->
     leb lo (nth i x nan) = true /\ leb (nth i x nan) hi = true).

(* ------------------------------------------------------------------ *)
(** ** Strings: [str.lower] on ASCII text *)
(* ------------------------------------------------------------------ *)

Definition lower_ascii (ch : ascii) : ascii :=
  let k := nat_of_ascii ch in
  if andb (Nat.leb 65 k) (Nat.leb k 90) then ascii_of_nat (k + 32) else ch.

Fixpoint lower (s : string) : string :=
  match s with
  | EmptyString => EmptyString
  | String ch s' => String (lower_ascii ch) (lower s')
  end.

(* ------------------------------------------------------------------ *)
(** ** Workspace sizes (lines 138-145) *)
(* ------------------------------------------------------------------ *)

(** [mineq = m - meq + n1 + n1] with [n1 = n + 1]. *)
Definition mineq (n m meq : Z) : Z :=
  let n1 := n + 1 in m - meq + n1 + n1.

(** [len_w], the size of the real workspace; [//] is floor division. *)
Definition len_w (n m meq : Z) : Z :=
  let n1 := n + 1 in
  let mineq := m - meq + n1 + n1 in
  (3*n1+m)*(n1+1)+(n1-meq+1)*(mineq+2) + 2*mineq+(n1+mineq)*(n1-meq)
  + 2*meq + n1 + ((n+1)*n)/2 + 2*m + 3*n + 3*n1 + 1.

(** [len_jw], the size of the integer workspace. *)
Definition len_jw (n m meq : Z) : Z := mineq n m meq.

(* ------------------------------------------------------------------ *)
(** ** Exit modes (lines 112-122) *)
(* ------------------------------------------------------------------ *)

Definition exit_modes (mode : Z) : option string :=
  match mode with
  | -1 => Some "Gradient evaluation required (g & a)"%string
  | 0 => Some "Optimization terminated successfully"%string
  | 1 => Some "Function evaluation required (f & c)"%string
  | 2 => Some "More equality constraints than independent variables"%string
  | 3 => Some "More than 3*n iterations in LSQ subproblem"%string
  | 4 => Some "Inequality constraints incompatible"%string
  | 5 => Some "Singular matrix E in LSQ subproblem"%string
  | 6 => Some "Singular matrix C in LSQ subproblem"%string
  | 7 => Some "Rank-deficient equality constraint subproblem HFTI"%string
  | 8 => Some "Positive directional derivative for linesearch"%string
  | 9 => Some "Iteration limit reached"%string
  | _ => None
  end.

(* ------------------------------------------------------------------ *)
(** ** Bounds (lines 52-60 and 147-173) *)
(* ------------------------------------------------------------------ *)

(** One old-style bound: a pair whose ends are floats or [None]. *)
Definition bound := (option float * option float)%type.

(** [old_bound_to_new]: [None] becomes an infinity of the right sign. *)
Definition old_bound_to_new (bounds : list bound) : list (float * float) :=
  map (fun b : bound =>
         (match fst b with Some l => l | None => ninf end,
          match snd b with Some u => u | None => inf end)) bounds.

(** Lines 54-57. The scalar pair [(-inf, inf)] broadcasts like a
    one-element array. *)
Definition new_bounds_of (bounds : option (list bound)) : list (float * float) :=
  match bounds with
  | None | Some [] => [(ninf, inf)]
  | Some b => old_bound_to_new b
  end.

(** Lines 154-157: [np.array(..., dtype=float)] turns [None] into NaN. *)
Definition bnds_of (bounds : list bound) : list (float * float) :=
  map (fun b : bound =>
         (match fst b with Some l => l | None => nan end,
          match snd b with Some u => u | None => nan end)) bounds.

(** Lines 170-173: infinite (and NaN) ends are marked with NaN. *)
Definition mark_nan (v : float) : float := if isfinite v then v else nan.

(** Lines 147-173: [xl] and [xu] for [n] variables. *)
Definition decompose_bounds (bounds : option (list bound)) (n : nat)
  : exn + (list float * list float) :=
  match bounds with
  | None | Some [] => inr (repeat nan n, repeat nan n)
  | Some b =>
      let bnds := bnds_of b in
      if negb (Nat.eqb (length bnds) n) then inl BoundsLength
      else
        let bnderr := map (fun p : float * float => gtb (fst p) (snd p)) bnds in
        if existsb (fun e : bool => e) bnderr then inl (LbGtUb bnderr)
        else inr (map (fun p : float * float => mark_nan (fst p)) bnds,
                  map (fun p : float * float => mark_nan (snd p)) bnds)
  end.

(* ------------------------------------------------------------------ *)
(** ** Multiplier extraction (lines 256-267) *)
(* ------------------------------------------------------------------ *)

(** The inner loop over one group: slices [_kkt_mult[w_ind:w_ind + dim]] are
    collected and [w_ind] advances; the final [w_ind] is returned with
    them. *)
Fixpoint kkt_group (_kkt_mult : list float) (w_ind : nat) (cv : list nat)
  : list (list float) * nat :=
  match cv with
  | [] => ([], w_ind)
  | dim :: cv' =>
      let span := Np.slice _kkt_mult w_ind (w_ind + dim) in
      let (kkt, w_end) := kkt_group _kkt_mult (w_ind + dim) cv' in
      (span :: kkt, w_end)
  end.

(** The mapping [kkt_multiplier]: key ['eq'] then key ['ineq']. *)
Record kkt_t := Kkt { kkt_eq : list (list float); kkt_ineq : list (list float) }.

Definition kkt_multiplier (_kkt_mult : list float) (_meq_cv _mieq_cv : list nat)
  : kkt_t :=
  let (e, w_ind) := kkt_group _kkt_mult 0 _meq_cv in
  let (i, _) := kkt_group _kkt_mult w_ind _mieq_cv in
  Kkt e i.

(** The index pairs [(w_ind, w_ind + dim)] the same loop visits. *)
Fixpoint span_bounds (w_ind : nat) (cv : list nat) : list (nat * nat) :=
  match cv with
  | [] => []
  | dim :: cv' => (w_ind, w_ind + dim)%nat :: span_bounds (w_ind + dim) cv'
  end.

(** Spans that follow one another from [start] to [stop]: each begins where
    the one before it ended. *)
Fixpoint chained (start : nat) (l : list (nat * nat)) (stop : nat) : Prop :=
  match l with
  | [] => start = stop
  | b :: l' => fst b = start /\ (fst b <= snd b)%nat /\ chained (snd b) l' stop
  end.

(** Lines 249-254: the offset [ir] of the multiplier block; [n1] is the
    kernel's cell of that name as the kernel left it. *)
Definition kkt_offset (la n : nat) (n1 : Z) : Z :=
  let im := 1 in
  let il := im + Z.of_nat la in
  let ix := il + (n1 * Z.of_nat n) / 2 + 1 in
  ix + Z.of_nat n - 1.

(* ------------------------------------------------------------------ *)
(** ** The driver *)
(* ------------------------------------------------------------------ *)

Section Driver.

(** Tuples of extra positional arguments, and the empty tuple. *)
Variable Args : Type.
Variable no_args : Args.

(** The kernel's private scalar cells ([alpha], [f0], [gs], [h1] .. [h4],
    [t], [t0], [tol], [iexact], [incons], [ireset], [itermx], [line],
    [n2], [n3]) and their initial value, all zero. *)
Variable K : Type.
Variable K0 : K.

(** *** Constraint specifications (lines 62-110) *)

Definition confun := list float -> Args -> Np.residual.
Definition userjac := list float -> Args -> Np.jacobian.
Definition conjac := list float -> Args -> exn + Np.jacobian.

(** The value stored under the key ['type']: a string, or something
    without a [lower] method. *)
Inductive type_value :=
| TStr (s : string)
| TOther.

(** A constraint dictionary: each key may be absent; [d_jac] is what
    [con.get('jac')] returns. *)
Record con_dict := ConDict {
  d_type : option type_value;
  d_fun : option confun;
  d_jac : option userjac;
  d_args : option Args
}.

(** An element of the sequence [constraints]: a dictionary or something
    that cannot be indexed by a string. *)
Inductive con_spec :=
| NotDict
| Dict (d : con_dict).

(** The argument [constraints]: one dictionary or a sequence. *)
Inductive constraints_arg :=
| OneDict (d : con_dict)
| Seq (l : list con_spec).

(** An entry of [cons['eq']] or [cons['ineq']]. *)
Record constraint := Constraint {
  c_fun : confun;
  c_jac : conjac;
  c_args : Args
}.

(** The dictionary [cons]: the tuples under ['eq'] and ['ineq']. *)
Record cons_t := Cons {
  cons_eq : list constraint;
  cons_ineq : list constraint
}.

(** The external numerical-differentiation service, with the method and
    steps of this run fixed. *)
Variable approx_derivative : confun -> list float -> Args -> Np.jacobian.

(** Modelled from the spec: [_check_clip_x] of the module [._optimize]
    is not among the sources; the specification has the point first
    clipped to the bounds. *)
Definition _check_clip_x (x : list float) (new_bounds : list (float * float))
  : exn + list float :=
  Np.clip x new_bounds.

(** Lines 91-105. *)
Definition cjac_factory (new_bounds : list (float * float)) (f : confun)
  : conjac :=
  fun x args =>
    match _check_clip_x x new_bounds with
    | inl e => inl e
    | inr x' => inr (approx_derivative f x' args)
    end.

(** Lines 63-64. *)
Definition as_sequence (constraints : constraints_arg) : list con_spec :=
  match constraints with
  | OneDict d => [Dict d]
  | Seq l => l
  end.

(** One turn of the loop of lines 67-110. *)
Definition triage_one (new_bounds : list (float * float))
           (ic : nat) (con : con_spec) (cons : cons_t) : exn + cons_t :=
  match con with
  | NotDict => inl NotADictionary
  | Dict d =>
      match d_type d with
      | None => inl (NoTypeDefined ic)
      | Some TOther => inl TypeNotAString
      | Some (TStr ty) =>
          let ctype := lower ty in
          if negb (orb (String.eqb ctype "eq") (String.eqb ctype "ineq"))
          then inl (UnknownType ty)
          else
            match d_fun d with
            | None => inl (NoFunctionDefined ic)
            | Some f =>
                let cjac :=
                  match d_jac d with
                  | Some j => fun x args => inr (j x args)
                  | None => cjac_factory new_bounds f
                  end in
                let entry :=
                  Constraint f cjac
                    (match d_args d with Some a => a | None => no_args end) in
                if String.eqb ctype "eq"
                then inr (Cons (cons_eq cons ++ [entry]) (cons_ineq cons))
                else inr (Cons (cons_eq cons) (cons_ineq cons ++ [entry]))
            end
      end
  end.

Fixpoint triage_from (new_bounds : list (float * float)) (ic : nat)
         (l : list con_spec) (cons : cons_t) : exn + cons_t :=
  match l with
  | [] => inr cons
  | con :: l' =>
      match triage_one new_bounds ic con cons with
      | inl e => inl e
      | inr cons' => triage_from new_bounds (S ic) l' cons'
      end
  end.

(** Lines 62-110. *)
Definition triage (new_bounds : list (float * float))
           (constraints : constraints_arg) : exn + cons_t :=
  triage_from new_bounds 0 (as_sequence constraints) (Cons [] []).

(** *** Constraint evaluation (lines 285-328) *)

Definition _eval_constraint (x : list float) (cons : cons_t) : list float :=
  let c_eq :=
    match cons_eq cons with
    | [] => Np.zeros 0
    | _ => concat (map (fun con => Np.atleast_1d (c_fun con x (c_args con)))
                       (cons_eq cons))
    end in
  let c_ieq :=
    match cons_ineq cons with
    | [] => Np.zeros 0
    | _ => concat (map (fun con => Np.atleast_1d (c_fun con x (c_args con)))
                       (cons_ineq cons))
    end in
  c_eq ++ c_ieq.

(** The list comprehension [[con['jac'](x, *con['args']) for con in ...]]:
    the first exception ends it. *)
Fixpoint jacobians (x : list float) (l : list constraint)
  : exn + list Np.matrix :=
  match l with
  | [] => inr []
  | con :: l' =>
      match c_jac con x (c_args con) with
      | inl e => inl e
      | inr j =>
          match jacobians x l' with
          | inl e => inl e
          | inr js => inr (Np.atleast_2d j :: js)
          end
      end
  end.

(** [a_eq] and [a_ieq]: the stacked Jacobians of a group, or
    [np.zeros((r, n))] for an empty group. *)
Definition stacked (x : list float) (l : list constraint) (r n : nat)
  : exn + Np.matrix :=
  match l with
  | [] => inr (Np.zeros2 r n)
  | _ => match jacobians x l with
         | inl e => inl e
         | inr js => Np.vstack js
         end
  end.

Definition _eval_con_normals (x : list float) (cons : cons_t)
           (la n m meq mieq : nat) : exn + Np.matrix :=
  match stacked x (cons_eq cons) meq n with
  | inl e => inl e
  | inr a_eq =>
      match stacked x (cons_ineq cons) mieq n with
      | inl e => inl e
      | inr a_ieq =>
          match (if Nat.eqb m 0 then inr (Np.zeros2 la n)
                 else Np.vstack [a_eq; a_ieq]) with
          | inl e => inl e
          | inr a => Np.hstack2 a (Np.zeros2 la 1)
          end
      end
  end.

(** *** Calls and computations *)

(** The cells the kernel mutates in place: the iterate [x], the arrays
    [c], [g], [a], the counters [majiter] and [mode], the workspaces [w]
    and [jw], and its state cells, of which [n1] is read back by the
    driver. *)
Record cells := Cells {
  s_x : list float;
  s_c : list float;
  s_g : list float;
  s_a : Np.matrix;
  s_majiter : Z;
  s_mode : Z;
  s_w : list float;
  s_jw : list float;
  s_n1 : Z;
  s_priv : K
}.

(** What the driver did, in order. *)
Inductive event :=
| CallConFun (x : list float)     (* c['fun'](x, *c['args']), lines 126-127 *)
| CallPrepare (x : list float)    (* _prepare_scalar_function(fun, x, ...) *)
| CallFun (x : list float)        (* wrapped_fun(x) *)
| CallGrad (x : list float)       (* wrapped_grad(x) *)
| CallConstraint (x : list float) (* _eval_constraint(x, cons) *)
| CallNormals (x : list float)    (* _eval_con_normals(x, cons, ...) *)
| CallKernel (k : cells).         (* slsqp(...), the cells as passed *)

(** The point a call was made at; the kernel call has none. *)
Definition event_point (ev : event) : option (list float) :=
  match ev with
  | CallConFun x | CallPrepare x | CallFun x | CallGrad x
  | CallConstraint x | CallNormals x => Some x
  | CallKernel _ => None
  end.

(** The calls made before the first kernel call. *)
Fixpoint before_kernel (t : list event) : list event :=
  match t with
  | [] => []
  | CallKernel _ :: _ => []
  | ev :: t' => ev :: before_kernel t'
  end.

(** The cells passed to the first kernel call, if there is one. *)
Fixpoint first_kernel (t : list event) : option cells :=
  match t with
  | [] => None
  | CallKernel k :: _ => Some k
  | _ :: t' => first_kernel t'
  end.

(** A computation: the calls made, then how it ended. *)
Definition M (A : Type) : Type := (list event * outcome A)%type.

Definition ret {A} (a : A) : M A := ([], Ret a).
Definition raise {A} (e : exn) : M A := ([], Raise e).
Definition emit (ev : event) : M unit := ([ev], Ret tt).
Definition out_of_fuel {A} : M A := ([], OutOfFuel).

Definition bind {A B} (c : M A) (f : A -> M B) : M B :=
  match c with
  | (t, Ret a) => let (t', r) := f a in (t ++ t', r)
  | (t, Raise e) => (t, Raise e)
  | (t, OutOfFuel) => (t, OutOfFuel)
  end.

Definition lift {A} (r : exn + A) : M A :=
  match r with
  | inl e => raise e
  | inr a => ret a
  end.

Definition trace {A} (c : M A) : list event := fst c.
Definition result_of {A} (c : M A) : outcome A := snd c.

Notation "x <- c ;; k" := (bind c (fun x => k))
  (at level 61, c at next level, right associativity).
Notation "c ;;; k" := (bind c (fun _ => k))
  (at level 61, right associativity).

(** *** The objective (lines 175-182) *)

(** Modelled from the spec: [_prepare_scalar_function] of the module
    [._optimize] is not among the sources. It yields one evaluator of the
    objective and one of its gradient (analytic or by finite
    differences); [sf_fun] and [sf_grad] are those two. *)
Variable sf_fun : list float -> float.
Variable sf_grad : list float -> list float.

(** Modelled from the spec: [_clip_x_for_func] of the module
    [._optimize] is not among the sources; every call first clips its
    argument into the bound box. *)
Definition _clip_x_for_func {A} (f : list float -> A)
           (new_bounds : list (float * float)) (x : list float) : exn + A :=
  match _check_clip_x x new_bounds with
  | inl e => inl e
  | inr x' => inr (f x')
  end.

(** *** The kernel *)

(** What the driver fixes before the loop: the registry, the bounds and the
    dimensions. *)
Record problem := Problem {
  p_cons : cons_t;
  p_new_bounds : list (float * float);
  p_la : nat;
  p_n : nat;
  p_m : nat;
  p_meq : nat;
  p_mieq : nat;
  p_xl : list float;
  p_xu : list float;
  p_acc : float
}.

(** [slsqp(m, meq, x, xl, xu, fx, c, g, a, acc, majiter, mode, w, jw, ...)]:
    the arguments it cannot change ([m], [meq], [xl], [xu], [fx], [acc]),
    then the cells it mutates; the result is the cells after the call. *)
Variable slsqp :
  nat -> nat -> list float -> list float -> float -> float -> cells -> cells.

(** The call of lines 224-227. *)
Definition call_slsqp (pb : problem) (fx : float) (k : cells) : cells :=
  slsqp (p_m pb) (p_meq pb) (p_xl pb) (p_xu pb) fx (p_acc pb) k.

(** The driver's own variables between two kernel calls. *)
Record state := State {
  st_cells : cells;
  st_fx : float;
  st_majiter_prev : Z
}.

Definition set_c (k : cells) (c : list float) : cells :=
  Cells (s_x k) c (s_g k) (s_a k) (s_majiter k) (s_mode k) (s_w k) (s_jw k)
        (s_n1 k) (s_priv k).

Definition set_g_a (k : cells) (g : list float) (a : Np.matrix) : cells :=
  Cells (s_x k) (s_c k) g a (s_majiter k) (s_mode k) (s_w k) (s_jw k)
        (s_n1 k) (s_priv k).

Definition wrapped_fun (pb : problem) (x : list float) : M float :=
  emit (CallFun x) ;;;
  lift (_clip_x_for_func sf_fun (p_new_bounds pb) x).

Definition wrapped_grad (pb : problem) (x : list float) : M (list float) :=
  emit (CallGrad x) ;;;
  lift (_clip_x_for_func sf_grad (p_new_bounds pb) x).

Definition eval_constraint (pb : problem) (x : list float) : M (list float) :=
  emit (CallConstraint x) ;;;
  ret (_eval_constraint x (p_cons pb)).

Definition eval_con_normals (pb : problem) (x : list float) : M Np.matrix :=
  emit (CallNormals x) ;;;
  lift (_eval_con_normals x (p_cons pb) (p_la pb) (p_n pb) (p_m pb)
                          (p_meq pb) (p_mieq pb)).

(** Lines 229-231. *)
Definition on_mode_1 (pb : problem) (st : state) : M state :=
  if s_mode (st_cells st) =? 1 then
    fx <- wrapped_fun pb (s_x (st_cells st)) ;;
    c <- eval_constraint pb (s_x (st_cells st)) ;;
    ret (State (set_c (st_cells st) c) fx (st_majiter_prev st))
  else ret st.

(** Lines 233-235: [g = np.append(wrapped_grad(x), 0.0)]. *)
Definition on_mode_m1 (pb : problem) (st : state) : M state :=
  if s_mode (st_cells st) =? -1 then
    g <- wrapped_grad pb (s_x (st_cells st)) ;;
    a <- eval_con_normals pb (s_x (st_cells st)) ;;
    ret (State (set_g_a (st_cells st) (g ++ [zero]) a) (st_fx st)
               (st_majiter_prev st))
  else ret st.

(** Lines 222-247, [while 1]: each unit of [fuel] pays for one turn. *)
Fixpoint loop (pb : problem) (fuel : nat) (st : state) : M state :=
  match fuel with
  | O => out_of_fuel
  | S fuel' =>
      emit (CallKernel (st_cells st)) ;;;
      let st0 := State (call_slsqp pb (st_fx st) (st_cells st)) (st_fx st)
                       (st_majiter_prev st) in
      st1 <- on_mode_1 pb st0 ;;
      st2 <- on_mode_m1 pb st1 ;;
      if negb (Z.abs (s_mode (st_cells st2)) =? 1) then ret st2
      else loop pb fuel'
                (State (st_cells st2) (st_fx st2) (s_majiter (st_cells st2)))
  end.

(** *** Before the loop *)

(** The caller's arguments. *)
Record arguments := MkArguments {
  a_x0 : list float;
  a_bounds : option (list bound);
  a_constraints : constraints_arg;
  a_maxiter : Z;
  a_ftol : float
}.

(** Lines 126-127: [[len(np.atleast_1d(c['fun'](x, *c['args']))) for c in ...]]. *)
Fixpoint residual_dims (x : list float) (l : list constraint) : M (list nat) :=
  match l with
  | [] => ret []
  | con :: l' =>
      emit (CallConFun x) ;;;
      d <- ret (length (Np.atleast_1d (c_fun con x (c_args con)))) ;;
      ds <- residual_dims x l' ;;
      ret (d :: ds)
  end.

(** [np.array(v, int)] of a Python int: it must fit a C long. *)
Definition int_array (v : Z) : exn + Z :=
  if andb (- 2 ^ 63 <=? v) (v <? 2 ^ 63) then inr v else inl IntTooLarge.

Definition sum_nat (l : list nat) : nat := fold_right Nat.add 0%nat l.

(** What lines 43-207 leave behind for the rest. *)
Record prepared := Prepared {
  pr_problem : problem;
  pr_meq_cv : list nat;
  pr_mieq_cv : list nat;
  pr_x : list float;
  pr_w : list float;
  pr_jw : list float;
  pr_majiter : Z
}.

(** Lines 43-207. *)
Definition prepare (args : arguments) : M prepared :=
  let iter := a_maxiter args - 1 in
  let new_bounds := new_bounds_of (a_bounds args) in
  x <- lift (Np.clip (a_x0 args) new_bounds) ;;
  cons <- lift (triage new_bounds (a_constraints args)) ;;
  _meq_cv <- residual_dims x (cons_eq cons) ;;
  _mieq_cv <- residual_dims x (cons_ineq cons) ;;
  let meq := sum_nat _meq_cv in
  let mieq := sum_nat _mieq_cv in
  let m := (meq + mieq)%nat in
  let la := Nat.max 1 m in
  let n := length x in
  w <- lift (Np.zerosZ (len_w (Z.of_nat n) (Z.of_nat m) (Z.of_nat meq))) ;;
  jw <- lift (Np.zerosZ (len_jw (Z.of_nat n) (Z.of_nat m) (Z.of_nat meq))) ;;
  xlu <- lift (decompose_bounds (a_bounds args) n) ;;
  emit (CallPrepare x) ;;;
  majiter <- lift (int_array iter) ;;
  ret (Prepared
         (Problem cons new_bounds la n m meq mieq (fst xlu) (snd xlu)
                  (a_ftol args))
         _meq_cv _mieq_cv x w jw majiter).

(** Lines 214-220: the evaluations made while [mode] is still zero. *)
Definition prime (p : prepared) : M state :=
  let pb := pr_problem p in
  let x := pr_x p in
  fx <- wrapped_fun pb x ;;
  g <- wrapped_grad pb x ;;
  c <- eval_constraint pb x ;;
  a <- eval_con_normals pb x ;;
  ret (State (Cells x c (g ++ [zero]) a (pr_majiter p) 0 (pr_w p) (pr_jw p)
                    0 K0)
             fx 0).

(** *** After the loop (lines 249-282) *)

(** The record [OptimizeResult]; the evaluation counts [nfev] and [njev]
    belong to the absent [ScalarFunction] object and are left out. *)
Record OptimizeResult := Result {
  r_x : list float;
  r_fun : float;
  r_jac : list float;
  r_nit : Z;
  r_status : Z;
  r_message : string;
  r_success : bool;
  r_kkt : kkt_t
}.

(** Lines 249-254: [_kkt_mult = w[ir:ir + m]]. *)
Definition read_kkt_mult (pb : problem) (k : cells) : list float :=
  let ir := kkt_offset (p_la pb) (p_n pb) (s_n1 k) in
  Np.sliceZ (s_w k) ir (ir + Z.of_nat (p_m pb)).

Definition finish (p : prepared) (st : state) : M OptimizeResult :=
  let pb := pr_problem p in
  let k := st_cells st in
  let _kkt_mult := read_kkt_mult pb k in
  let kkt := kkt_multiplier _kkt_mult (pr_meq_cv p) (pr_mieq_cv p) in
  match exit_modes (s_mode k) with
  | None => raise (NoExitMode (s_mode k))
  | Some message =>
      ret (Result (s_x k) (st_fx st) (removelast (s_g k)) (s_majiter k)
                  (s_mode k) message (s_mode k =? 0) kkt)
  end.

(** Prime, then iterate until the kernel reports a terminal mode. *)
Definition drive (fuel : nat) (p : prepared) : M state :=
  st <- prime p ;;
  loop (pr_problem p) fuel st.

(** [_minimize_slsqp]. *)
Definition _minimize_slsqp (fuel : nat) (args : arguments) : M OptimizeResult :=
  p <- prepare args ;;
  st <- drive fuel p ;;
  finish p st.

(** *** The specification's reading of the driver *)

(** The four evaluations made before the first kernel call. *)
Definition priming (x : list float) : list event :=
  [CallFun x; CallGrad x; CallConstraint x; CallNormals x].

(** The mode-driven protocol, stated on traces. Starting from a state, the
    kernel is called; when it leaves a mode other than +1 and -1 the run is
    over; when it leaves +1 the objective and the residuals are evaluated at
    its iterate, and when it leaves -1 the gradient and the normals are,
    and the protocol goes on from there. *)
Inductive protocol (pb : problem) : state -> list event -> state -> Prop :=
| protocol_stop (st : state) :
    let k := call_slsqp pb (st_fx st) (st_cells st) in
    Z.abs (s_mode k) <> 1 ->
    protocol pb st [CallKernel (st_cells st)]
             (State k (st_fx st) (st_majiter_prev st))
| protocol_function (st : state) (fx : float) (t : list event) (st' : state) :
    let k := call_slsqp pb (st_fx st) (st_cells st) in
    s_mode k = 1 ->
    _clip_x_for_func sf_fun (p_new_bounds pb) (s_x k) = inr fx ->
    protocol pb
             (State (set_c k (_eval_constraint (s_x k) (p_cons pb))) fx
                    (s_majiter k))
             t st' ->
    protocol pb st
             (CallKernel (st_cells st) :: CallFun (s_x k)
                :: CallConstraint (s_x k) :: t)
             st'
| protocol_gradient (st : state) (g : list float) (a : Np.matrix)
                    (t : list event) (st' : state) :
    let k := call_slsqp pb (st_fx st) (st_cells st) in
    s_mode k = -1 ->
    _clip_x_for_func sf_grad (p_new_bounds pb) (s_x k) = inr g ->
    _eval_con_normals (s_x k) (p_cons pb) (p_la pb) (p_n pb) (p_m pb)
                      (p_meq pb) (p_mieq pb) = inr a ->
    protocol pb
             (State (set_g_a k (g ++ [zero]) a) (st_fx st) (s_majiter k))
             t st' ->
    protocol pb st
             (CallKernel (st_cells st) :: CallGrad (s_x k)
                :: CallNormals (s_x k) :: t)
             st'.

(** A constraint dictionary the specification calls malformed: no kind, a
    kind that is neither of the two recognised ones, or no residual
    function. *)
Definition malformed (d : con_dict) : Prop :=
  d_type d = None \/
  (exists ty, d_type d = Some (TStr ty)
              /\ lower ty <> "eq"%string /\ lower ty <> "ineq"%string) \/
  d_fun d = None.

(** *** Readings of the registry and of the loop *)

(** The entry lines 108-110 add for a dictionary whose residual function is
    [f]: its own Jacobian or the synthesized one, its own arguments or the
    empty tuple. *)
Definition entry_of (new_bounds : list (float * float)) (d : con_dict)
           (f : confun) : constraint :=
  Constraint f
             (match d_jac d with
              | Some j => fun x args => inr (j x args)
              | None => cjac_factory new_bounds f
              end)
             (match d_args d with Some a => a | None => no_args end).

(** Whether an element of the sequence is a dictionary with a residual
    function whose kind, lowered, is [kind]. *)
Definition has_kind (kind : string) (con : con_spec) : bool :=
  match con with
  | NotDict => false
  | Dict d =>
      match d_type d, d_fun d with
      | Some (TStr ty), Some _ => String.eqb (lower ty) kind
      | _, _ => false
      end
  end.

(** The entries of the dictionaries of a sequence that have a residual
    function, in the order of the sequence. *)
Definition entries (new_bounds : list (float * float)) (l : list con_spec)
  : list constraint :=
  flat_map (fun con =>
              match con with
              | NotDict => []
              | Dict d =>
                  match d_fun d with
                  | Some f => [entry_of new_bounds d f]
                  | None => []
                  end
              end) l.

(** The residual dimension of a registered constraint at a point. *)
Definition residual_dim (x : list float) (con : constraint) : nat :=
  length (Np.atleast_1d (c_fun con x (c_args con))).

(** The cells of the kernel calls of a trace, in order. *)
Definition kernel_calls (t : list event) : list cells :=
  flat_map (fun ev => match ev with CallKernel k => [k] | _ => [] end) t.

(** [k'] is [k] except, at most, for the arrays [c], [g] and [a]. *)
Definition kernel_kept (k k' : cells) : Prop :=
  s_x k' = s_x k /\ s_majiter k' = s_majiter k /\ s_mode k' = s_mode k /\
  s_w k' = s_w k /\ s_jw k' = s_jw k /\ s_n1 k' = s_n1 k /\
  s_priv k' = s_priv k.

(** Each kernel call of the list receives what the call before it left,
    except, at most, for [c], [g] and [a]. *)
Fixpoint kept_chain (pb : problem) (ks : list cells) : Prop :=
  match ks with
  | [] => True
  | k :: rest =>
      match rest with
      | [] => True
      | k' :: _ =>
          (exists fx, kernel_kept (call_slsqp pb fx k) k')
          /\ kept_chain pb rest
      end
  end.

End Driver.

(* ------------------------------------------------------------------ *)
(** ** A concrete instance *)
(* ------------------------------------------------------------------ *)

(** A small kernel and small problems on which the driver can be run. The
    kernel counts [majiter] down: it reports the iteration limit (mode 9)
    when nothing is left, success (mode 0) at the last unit, and asks for
    functions (mode 1) or gradients (mode -1) in turn before that. *)
Module Demo.

Definition kernel (m meq : nat) (xl xu : list float) (fx acc : float)
           (k : cells unit) : cells unit :=
  let it := s_majiter k in
  Cells (s_x k) (s_c k) (s_g k) (s_a k) (it - 1)
        (if it <=? 0 then 9
         else if it =? 1 then 0
         else if Z.even it then -1 else 1)
        (s_w k) (s_jw k) (Z.of_nat (length (s_x k)) + 1) (s_priv k).

(** The objective [f(x) = x[0]] and its gradient. *)
Definition f (x : list float) : float := hd nan x.
Definition grad_f (x : list float) : list float := map (fun _ => of_Z 1) x.

(** A stand-in for numerical differentiation: a zero matrix with one row
    per residual. *)
Definition approx (fn : confun unit) (x : list float) (a : unit) : Np.jacobian :=
  Np.Mat (Np.zeros2 (length (Np.atleast_1d (fn x a))) (length x)).

Definition minimize : nat -> arguments unit -> M unit (OptimizeResult) :=
  _minimize_slsqp tt tt approx f grad_f kernel.

(** [x0 = -5] with [bounds = [(0, 10)]]. *)
Definition bounds_0_10 : list bound := [(Some (of_Z 0), Some (of_Z 10))].

Definition clipped_start : arguments unit :=
  MkArguments [of_Z (-5)] (Some bounds_0_10) (Seq []) 4 zero.

(** One scalar equality constraint and one inequality constraint with two
    residuals, both without a Jacobian of their own. *)
Definition eq_con : con_dict unit :=
  ConDict (Some (TStr "eq")) (Some (fun x _ => Np.Scalar (hd nan x))) None None.
Definition ineq_con : con_dict unit :=
  ConDict (Some (TStr "ineq")) (Some (fun x _ => Np.Vec [hd nan x; zero])) None None.

Definition constrained : arguments unit :=
  MkArguments [of_Z 3; of_Z 4; of_Z 5] None (Seq [Dict ineq_con; Dict eq_con]) 4 zero.

(** A dictionary without a ['type'] key. *)
Definition untyped_con : con_dict unit :=
  ConDict None (Some (fun x _ => Np.Scalar (hd nan x))) None None.

Definition misconfigured : arguments unit :=
  MkArguments [of_Z 3] None (Seq [Dict eq_con; Dict untyped_con]) 4 zero.

(** No iteration left: the kernel stops at once with mode 9. *)
Definition exhausted : arguments unit :=
  MkArguments [of_Z 3] None (Seq []) 1 zero.

(** One variable, two bound pairs. *)
Definition two_bounds_one_variable : arguments unit :=
  MkArguments [of_Z (-5)] (Some (bounds_0_10 ++ bounds_0_10)) (Seq []) 4 zero.

(** The pieces of a run, for the problems above. *)
Definition no_cells : cells unit :=
  Cells [] [] [] (Np.Matrix 0 []) 0 0 [] [] 0 tt.

Definition no_prepared : prepared unit :=
  Prepared (Problem (Cons [] []) [] 0 0 0 0 0 [] [] zero) [] [] [] [] [] 0.

Definition prepared_of (args : arguments unit) : prepared unit :=
  match snd (prepare tt unit approx args) with
  | Ret p => p
  | _ => no_prepared
  end.

Definition final_of (fuel : nat) (p : prepared unit) : state unit :=
  match snd (drive tt f grad_f kernel fuel p) with
  | Ret st => st
  | _ => State no_cells zero 0
  end.

Definition first_cells (fuel : nat) (args : arguments unit) : cells unit :=
  match first_kernel (fst (minimize fuel args)) with
  | Some k => k
  | None => no_cells
  end.

(** The registry of a problem. *)
Definition cons_of (args : arguments unit) : cons_t unit :=
  match triage tt approx (new_bounds_of (a_bounds args))
               (a_constraints args) with
  | inr cs => cs
  | inl _ => Cons [] []
  end.

(** One variable and an equality constraint with a hundred residuals,
    its kind written in capitals. *)
Definition wide_con : con_dict unit :=
  ConDict (Some (TStr "EQ")) (Some (fun _ _ => Np.Vec (repeat zero 100)))
          None None.

Definition overdetermined : arguments unit :=
  MkArguments [of_Z 3] None (Seq [Dict wide_con]) 4 zero.

(** Two variables and one bound pair. *)
Definition one_bound_two_variables : arguments unit :=
  MkArguments [of_Z 3; of_Z 4] (Some bounds_0_10) (Seq [Dict eq_con]) 4 zero.

(** The stacked normals of a problem at a point, as the driver asks for
    them. *)
Definition normals_of (args : arguments unit) (x : list float) : Np.matrix :=
  let p := pr_problem (prepared_of args) in
  match _eval_con_normals x (p_cons p) (p_la p) (p_n p) (p_m p) (p_meq p)
                          (p_mieq p) with
  | inr a => a
  | inl _ => Np.Matrix 0 []
  end.

(** The result of a run. *)
Definition result_of (fuel : nat) (args : arguments unit) : OptimizeResult :=
  match snd (minimize fuel args) with
  | Ret res => res
  | _ => Result [] zero [] 0 0 EmptyString false (Kkt [] [])
  end.

End Demo.

(* ------------------------------------------------------------------ *)
(** ** Workspace sizes *)
(* ------------------------------------------------------------------ *)









Lemma len_jw_monotone (n m meq n' m' : Z) :
  n <= n' -> m <= m' ->
  len_jw n m meq <= len_jw n' m meq /\ len_jw n m meq <= len_jw n m' meq.
Proof. intros. unfold len_jw, mineq. cbv zeta. lia. Qed.

(* ------------------------------------------------------------------ *)
(** ** Multiplier extraction *)
(* ------------------------------------------------------------------ *)

Lemma sum_nat_app (a b : list nat) :
  sum_nat (a ++ b) = (sum_nat a + sum_nat b)%nat.
Proof. induction a as [|d a IH]; simpl; [reflexivity | rewrite IH; lia]. Qed.

Lemma slice_length {A} (l : list A) (lo hi : nat) :
  length (Np.slice l lo hi) = Nat.min (hi - lo) (length l - lo).
Proof. unfold Np.slice. now rewrite length_firstn, length_skipn. Qed.

Lemma slice_all {A} (l : list A) : Np.slice l 0 (length l) = l.
Proof. unfold Np.slice. simpl. rewrite Nat.sub_0_r. apply firstn_all. Qed.

Lemma slice_split {A} (l : list A) (lo d e : nat) :
  Np.slice l lo (lo + d) ++ Np.slice l (lo + d) (lo + d + e)
  = Np.slice l lo (lo + d + e).
Proof.
  unfold Np.slice.
  replace (lo + d - lo)%nat with d by lia.
  replace (lo + d + e - (lo + d))%nat with e by lia.
  replace (lo + d + e - lo)%nat with (d + e)%nat by lia.
  rewrite (Nat.add_comm lo d), <- skipn_skipn.
  generalize (skipn lo l) as r. clear l lo. intros r.
  revert r. induction d as [|d IH]; intros r; simpl.
  - reflexivity.
  - destruct r as [|a r]; simpl.
    + now rewrite firstn_nil.
    + now rewrite IH.
Qed.

Lemma kkt_group_end (k : list float) (cv : list nat) (w_ind : nat) :
  snd (kkt_group k w_ind cv) = (w_ind + sum_nat cv)%nat.
Proof.
  revert w_ind. induction cv as [|dim cv IH]; intros w_ind; simpl.
  - lia.
  - specialize (IH (w_ind + dim)%nat).
    destruct (kkt_group k (w_ind + dim) cv) as [r e]. simpl in *. lia.
Qed.

Lemma kkt_group_spans (k : list float) (cv : list nat) (w_ind : nat) :
  fst (kkt_group k w_ind cv)
  = map (fun b => Np.slice k (fst b) (snd b)) (span_bounds w_ind cv).
Proof.
  revert w_ind. induction cv as [|dim cv IH]; intros w_ind; simpl.
  - reflexivity.
  - specialize (IH (w_ind + dim)%nat).
    destruct (kkt_group k (w_ind + dim) cv) as [r e]. simpl in *.
    now rewrite IH.
Qed.

Lemma kkt_group_lengths (k : list float) (cv : list nat) (w_ind : nat) :
  (w_ind + sum_nat cv <= length k)%nat ->
  map (@length float) (fst (kkt_group k w_ind cv)) = cv.
Proof.
  revert w_ind. induction cv as [|dim cv IH]; intros w_ind H; simpl in *.
  - reflexivity.
  - specialize (IH (w_ind + dim)%nat).
    destruct (kkt_group k (w_ind + dim) cv) as [r e]. simpl in *.
    rewrite IH by lia. rewrite slice_length. f_equal. lia.
Qed.

Lemma kkt_group_concat (k : list float) (cv : list nat) (w_ind : nat) :
  concat (fst (kkt_group k w_ind cv))
  = Np.slice k w_ind (w_ind + sum_nat cv).
Proof.
  revert w_ind. induction cv as [|dim cv IH]; intros w_ind; simpl.
  - unfold Np.slice. now rewrite Nat.add_0_r, Nat.sub_diag.
  - specialize (IH (w_ind + dim)%nat).
    destruct (kkt_group k (w_ind + dim) cv) as [r e]. simpl in *.
    rewrite IH, Nat.add_assoc. apply slice_split.
Qed.

Lemma span_bounds_app (a b : list nat) (w_ind : nat) :
  span_bounds w_ind (a ++ b)
  = span_bounds w_ind a ++ span_bounds (w_ind + sum_nat a) b.
Proof.
  revert w_ind. induction a as [|d a IH]; intros w_ind; simpl.
  - now rewrite Nat.add_0_r.
  - now rewrite IH, Nat.add_assoc.
Qed.

Lemma span_bounds_chained (cv : list nat) (w_ind : nat) :
  chained w_ind (span_bounds w_ind cv) (w_ind + sum_nat cv).
Proof.
  revert w_ind. induction cv as [|d cv IH]; intros w_ind; simpl.
  - lia.
  - repeat split; [lia|]. rewrite Nat.add_assoc. apply IH.
Qed.

Lemma span_bounds_widths (cv : list nat) (w_ind : nat) :
  map (fun b => (snd b - fst b)%nat) (span_bounds w_ind cv) = cv.
Proof.
  revert w_ind. induction cv as [|d cv IH]; intros w_ind; simpl.
  - reflexivity.
  - rewrite IH. f_equal. lia.
Qed.

Lemma span_bounds_after (cv : list nat) (w_ind : nat) :
  Forall (fun b => (w_ind <= fst b)%nat) (span_bounds w_ind cv).
Proof.
  revert w_ind. induction cv as [|d cv IH]; intros w_ind; simpl.
  - constructor.
  - constructor; [simpl; lia|].
    eapply Forall_impl; [|apply IH]. simpl. intros b Hb. lia.
Qed.

Lemma span_bounds_disjoint (cv : list nat) (w_ind : nat) :
  ForallOrdPairs (fun b b' => (snd b <= fst b')%nat) (span_bounds w_ind cv).
Proof.
  revert w_ind. induction cv as [|d cv IH]; intros w_ind; simpl.
  - constructor.
  - constructor; [apply span_bounds_after | apply IH].
Qed.

Lemma kkt_multiplier_spans (k : list float) (eqv ineqv : list nat) :
  kkt_eq (kkt_multiplier k eqv ineqv) ++ kkt_ineq (kkt_multiplier k eqv ineqv)
  = map (fun b => Np.slice k (fst b) (snd b)) (span_bounds 0 (eqv ++ ineqv)).
Proof.
  unfold kkt_multiplier.
  pose proof (kkt_group_end k eqv 0) as He.
  pose proof (kkt_group_spans k eqv 0) as Hs.
  destruct (kkt_group k 0 eqv) as [e w1]. simpl in He, Hs. subst w1.
  pose proof (kkt_group_spans k ineqv (sum_nat eqv)) as Hi.
  destruct (kkt_group k (sum_nat eqv) ineqv) as [i w2]. simpl in *.
  now rewrite span_bounds_app, map_app, Hs, Hi.
Qed.

(** C1: an [m]-long multiplier slice, [m] the total of the recorded residual
    dimensions, is cut into one span per equality constraint and then one
    per inequality constraint, in registration order; every span is as long
    as its constraint's residual dimension; the spans follow one another
    from index 0 to index [m], do not overlap, and together are the whole
    slice. *)
Theorem kkt_multiplier_partition
        (_kkt_mult : list float) (_meq_cv _mieq_cv : list nat) :
  length _kkt_mult = (sum_nat _meq_cv + sum_nat _mieq_cv)%nat ->
  let kkt := kkt_multiplier _kkt_mult _meq_cv _mieq_cv in
  let spans := span_bounds 0 (_meq_cv ++ _mieq_cv) in
  map (@length float) (kkt_eq kkt) = _meq_cv /\
  map (@length float) (kkt_ineq kkt) = _mieq_cv /\
  kkt_eq kkt ++ kkt_ineq kkt
    = map (fun b => Np.slice _kkt_mult (fst b) (snd b)) spans /\
  map (fun b => (snd b - fst b)%nat) spans = _meq_cv ++ _mieq_cv /\
  chained 0 spans (length _kkt_mult) /\
  ForallOrdPairs (fun b b' => (snd b <= fst b')%nat) spans /\
  concat (kkt_eq kkt ++ kkt_ineq kkt) = _kkt_mult.
Proof.
  intros Hlen kkt spans.
  assert (Hspans := kkt_multiplier_spans _kkt_mult _meq_cv _mieq_cv).
  fold kkt in Hspans. fold spans in Hspans.
  assert (Hl : map (@length float) (kkt_eq kkt) = _meq_cv
               /\ map (@length float) (kkt_ineq kkt) = _mieq_cv
               /\ concat (kkt_eq kkt ++ kkt_ineq kkt) = _kkt_mult).
  { subst kkt. unfold kkt_multiplier.
    pose proof (kkt_group_end _kkt_mult _meq_cv 0) as He.
    pose proof (@kkt_group_lengths _kkt_mult _meq_cv 0) as Hle.
    pose proof (kkt_group_concat _kkt_mult _meq_cv 0) as Hce.
    destruct (kkt_group _kkt_mult 0 _meq_cv) as [e w1].
    simpl in He, Hle, Hce. subst w1.
    pose proof (@kkt_group_lengths _kkt_mult _mieq_cv (sum_nat _meq_cv)) as Hli.
    pose proof (kkt_group_concat _kkt_mult _mieq_cv (sum_nat _meq_cv)) as Hci.
    destruct (kkt_group _kkt_mult (sum_nat _meq_cv) _mieq_cv) as [i w2].
    simpl in *. repeat split.
    - apply Hle. lia.
    - apply Hli. lia.
    - rewrite concat_app, Hce, Hci.
      pose proof (slice_split _kkt_mult 0 (sum_nat _meq_cv) (sum_nat _mieq_cv))
        as Hs.
      simpl in Hs. rewrite Hs, <- Hlen. apply slice_all. }
  destruct Hl as (H1 & H2 & H3).
  repeat split; try assumption.
  - apply span_bounds_widths.
  - subst spans. rewrite Hlen, <- sum_nat_app.
    apply (span_bounds_chained (_meq_cv ++ _mieq_cv) 0).
  - apply span_bounds_disjoint.
Qed.

Lemma kkt_multiplier_partition_witness :
  let k := [of_Z 1; of_Z 2; of_Z 3; of_Z 4; of_Z 5] in
  let kkt := kkt_multiplier k [1; 2]%nat [0; 2]%nat in
  let spans := span_bounds 0 ([1; 2] ++ [0; 2])%nat in
  map (@length float) (kkt_eq kkt) = [1; 2]%nat /\
  map (@length float) (kkt_ineq kkt) = [0; 2]%nat /\
  kkt_eq kkt ++ kkt_ineq kkt
    = map (fun b => Np.slice k (fst b) (snd b)) spans /\
  map (fun b => (snd b - fst b)%nat) spans = ([1; 2] ++ [0; 2])%nat /\
  chained 0 spans (length k) /\
  ForallOrdPairs (fun b b' => (snd b <= fst b')%nat) spans /\
  concat (kkt_eq kkt ++ kkt_ineq kkt) = k.
Proof.
  apply (@kkt_multiplier_partition
           [of_Z 1; of_Z 2; of_Z 3; of_Z 4; of_Z 5] [1; 2]%nat [0; 2]%nat).
  reflexivity.
Defined.

(* ------------------------------------------------------------------ *)
(** ** Clipping *)
(* ------------------------------------------------------------------ *)

Lemma SFcompare_refl (a : float) : isnan a = false -> SFcompare a a = Some Eq.
Proof.
  destruct a as [s|s| |s m e]; simpl; try discriminate; intros _.
  - reflexivity.
  - now destruct s.
  - rewrite Z.compare_refl.
    change (Pos.compare_cont Eq m m) with (Pos.compare m m).
    rewrite Pos.compare_refl. now destruct s.
Qed.

Lemma leb_refl (a : float) : isnan a = false -> leb a a = true.
Proof. intros H. unfold leb, SFleb. now rewrite SFcompare_refl. Qed.

Lemma ltb_leb (a b : float) : ltb a b = true -> leb a b = true.
Proof.
  unfold ltb, leb, SFltb, SFleb.
  destruct (SFcompare a b) as [[| |]|]; congruence.
Qed.

Lemma leb_not_nan (a b : float) :
  leb a b = true -> isnan a = false /\ isnan b = false.
Proof.
  unfold leb, SFleb.
  destruct a as [s|s| |s m e], b as [s'|s'| |s' m' e']; simpl; auto; discriminate.
Qed.

Lemma clip1_within (x lo hi : float) :
  isnan x = false -> leb lo hi = true ->
  leb lo (clip1 x lo hi) = true /\ leb (clip1 x lo hi) hi = true.
Proof.
  intros Hx Hb. destruct (leb_not_nan _ _ Hb) as [Hlo Hhi].
  unfold clip1, np_max, np_min. rewrite Hx.
  assert (Ht : isnan (if gtb x lo then x else lo) = false
               /\ leb lo (if gtb x lo then x else lo) = true).
  { destruct (gtb x lo) eqn:G.
    - split; [assumption|]. now apply ltb_leb.
    - split; [assumption|]. now apply leb_refl. }
  destruct Ht as [Htn Htl]. rewrite Htn.
  destruct (ltb (if gtb x lo then x else lo) hi) eqn:L.
  - split; [assumption|]. now apply ltb_leb.
  - split; [assumption|]. now apply leb_refl.
Qed.

Lemma clip_zip_length (x : list float) (b : list (float * float)) :
  length x = length b -> length (Np.clip_zip x b) = length x.
Proof.
  revert b. induction x as [|xi x IH]; intros [|[lo hi] b] H; simpl in *;
    try discriminate; auto.
Qed.

Lemma clip_zip_nth (x : list float) (b : list (float * float)) (i : nat) :
  length x = length b -> (i < length x)%nat ->
  nth i (Np.clip_zip x b) nan
  = clip1 (nth i x nan) (fst (nth i b (nan, nan))) (snd (nth i b (nan, nan))).
Proof.
  revert b i. induction x as [|xi x IH]; intros [|[lo hi] b] i H Hi;
    simpl in *; try discriminate; try lia.
  destruct i as [|i]; [reflexivity|]. apply IH; lia.
Qed.

Lemma map_clip_nth (a : float) (b : list (float * float)) (i : nat) :
  (i < length b)%nat ->
  nth i (map (fun '(lo, hi) => clip1 a lo hi) b) nan
  = clip1 a (fst (nth i b (nan, nan))) (snd (nth i b (nan, nan))).
Proof.
  revert i. induction b as [|[lo hi] b IH]; intros i Hi; simpl in *; [lia|].
  destruct i as [|i]; [reflexivity|]. apply IH. lia.
Qed.

Lemma clamped_intro (x0 : list float) (b : list (float * float))
      (x : list float) :
  (forall i : nat, (i < length x)%nat ->
     nth i x nan
     = clip1 (nth (if Nat.eqb (length x0) 1 then 0%nat else i) x0 nan)
             (fst (nth (if Nat.eqb (length b) 1 then 0%nat else i) b (nan, nan)))
             (snd (nth (if Nat.eqb (length b) 1 then 0%nat else i) b (nan, nan)))) ->
  clamped x0 b x.
Proof.
  intros H i Hi. cbv zeta. split; [now apply H|].
  intros Hn Hb. rewrite (H i Hi). now apply clip1_within.
Qed.

(** What [np.clip] returns is the clamped point. *)
Lemma clip_clamped (x0 : list float) (b : list (float * float))
      (x : list float) :
  Np.clip x0 b = inr x -> clamped x0 b x.
Proof.
  unfold Np.clip. intros H. apply clamped_intro. intros i Hi.
  destruct (Nat.eqb (length x0) (length b)) eqn:E.
  - apply Nat.eqb_eq in E. injection H as <-.
    rewrite clip_zip_length in Hi by assumption.
    rewrite clip_zip_nth by assumption.
    destruct (Nat.eqb (length x0) 1) eqn:E1.
    + apply Nat.eqb_eq in E1. rewrite <- E, E1. simpl.
      now replace i with 0%nat by lia.
    + rewrite <- E, E1. reflexivity.
  - destruct b as [|[lo hi] [|p b]].
    + destruct x0 as [|a [|a' x0]]; try discriminate.
      injection H as <-. simpl in Hi. lia.
    + injection H as <-. rewrite length_map in Hi. simpl.
      assert (N : Nat.eqb (length x0) 1 = false).
      { apply Nat.eqb_neq. intros C. rewrite C in E. discriminate. }
      rewrite N.
      rewrite (nth_indep _ nan (clip1 nan lo hi))
        by (now rewrite length_map).
      now rewrite (map_nth (fun xi => clip1 xi lo hi)).
    + destruct x0 as [|a [|a' x0]]; try discriminate.
      set (bb := (lo, hi) :: p :: b) in *.
      assert (Hx : x = map (fun '(lo, hi) => clip1 a lo hi) bb) by congruence.
      subst x. clear H. rewrite length_map in Hi.
      replace (Nat.eqb (length bb) 1) with false by reflexivity.
      simpl (nth _ [a] nan). now apply map_clip_nth.
Qed.

(* ------------------------------------------------------------------ *)
(** ** Traces of computations *)
(* ------------------------------------------------------------------ *)

Lemma bind_trace {K A B} (c : M K A) (f : A -> M K B) :
  fst (bind c f)
  = fst c ++ match snd c with Ret a => fst (f a) | _ => [] end.
Proof.
  destruct c as [t [a|e|]]; simpl.
  - now destruct (f a).
  - now rewrite app_nil_r.
  - now rewrite app_nil_r.
Qed.

Lemma bind_pair {K A B} (t : list (event K)) (a : A) (f : A -> M K B) :
  bind (t, Ret a) f = (t ++ fst (f a), snd (f a)).
Proof. simpl. now destruct (f a). Qed.

Lemma bind_ret {K A B} (a : A) (f : A -> M K B) : bind (ret K a) f = f a.
Proof. unfold ret. rewrite bind_pair. now destruct (f a). Qed.

Lemma bind_lift_inr {K A B} (a : A) (f : A -> M K B) :
  bind (lift K (inr a)) f = f a.
Proof. apply bind_ret. Qed.

Lemma bind_lift_inl {K A B} (e : exn) (f : A -> M K B) :
  bind (lift K (inl e)) f = ([], Raise e).
Proof. reflexivity. Qed.

Lemma bind_emit {K B} (ev : event K) (f : unit -> M K B) :
  bind (emit ev) f = (ev :: fst (f tt), snd (f tt)).
Proof. unfold emit. now rewrite bind_pair. Qed.

Lemma bind_Ret_inv {K A B} (c : M K A) (f : A -> M K B) t b :
  bind c f = (t, Ret b) ->
  exists t1 a t2, c = (t1, Ret a) /\ f a = (t2, Ret b) /\ t = t1 ++ t2.
Proof.
  destruct c as [t1 [a|e|]]; simpl; try discriminate.
  destruct (f a) as [t2 r] eqn:E. intros H. injection H as <- ->.
  now exists t1, a, t2.
Qed.

Lemma residual_dims_eq {Args} K (x : list float) (l : list (constraint Args)) :
  residual_dims K x l
  = (map (fun _ => CallConFun K x) l,
     Ret (map (fun con => length (Np.atleast_1d (c_fun con x (c_args con)))) l)).
Proof.
  induction l as [|con l IH]; simpl.
  - reflexivity.
  - rewrite IH. simpl. now rewrite app_nil_r.
Qed.

Lemma before_kernel_app {K} (t1 t2 : list (event K)) :
  Forall (fun ev => event_point ev <> None) t1 ->
  before_kernel (t1 ++ t2) = t1 ++ before_kernel t2.
Proof.
  induction 1 as [|ev t1 Hev _ IH]; simpl.
  - reflexivity.
  - destruct ev; simpl in *; try congruence; now rewrite IH.
Qed.

Lemma first_kernel_app {K} (t1 t2 : list (event K)) :
  Forall (fun ev => event_point ev <> None) t1 ->
  first_kernel (t1 ++ t2) = first_kernel t2.
Proof.
  induction 1 as [|ev t1 Hev _ IH]; simpl.
  - reflexivity.
  - destruct ev; simpl in *; try congruence; now rewrite IH.
Qed.

Section Properties.

Variable Args : Type.
Variable no_args : Args.
Variable K : Type.
Variable K0 : K.
Variable approx_derivative : confun Args -> list float -> Args -> Np.jacobian.
Variable sf_fun : list float -> float.
Variable sf_grad : list float -> list float.
Variable slsqp :
  nat -> nat -> list float -> list float -> float -> float -> cells K -> cells K.

Local Abbreviation minimize :=
  (_minimize_slsqp no_args K0 approx_derivative sf_fun sf_grad slsqp).
Local Abbreviation prepare_ := (prepare no_args K approx_derivative).
Local Abbreviation triage_ := (triage no_args approx_derivative).
Local Abbreviation prime_ := (prime K0 sf_fun sf_grad).
Local Abbreviation loop_ := (loop sf_fun sf_grad slsqp).
Local Abbreviation drive_ := (drive K0 sf_fun sf_grad slsqp).
Local Abbreviation dim_of x :=
  (fun con : constraint Args =>
     length (Np.atleast_1d (c_fun con x (c_args con)))).

(** [prepare], stage by stage. *)
Lemma prepare_eq (args : arguments Args) :
  prepare_ args =
  let new_bounds := new_bounds_of (a_bounds args) in
  match Np.clip (a_x0 args) new_bounds with
  | inl e => ([], Raise e)
  | inr x =>
      match triage_ new_bounds (a_constraints args) with
      | inl e => ([], Raise e)
      | inr cs =>
          let _meq_cv := map (dim_of x) (cons_eq cs) in
          let _mieq_cv := map (dim_of x) (cons_ineq cs) in
          let meq := sum_nat _meq_cv in
          let mieq := sum_nat _mieq_cv in
          let m := (meq + mieq)%nat in
          let n := length x in
          let calls := map (fun _ => CallConFun K x) (cons_eq cs ++ cons_ineq cs) in
          match Np.zerosZ (len_w (Z.of_nat n) (Z.of_nat m) (Z.of_nat meq)),
                Np.zerosZ (len_jw (Z.of_nat n) (Z.of_nat m) (Z.of_nat meq)),
                decompose_bounds (a_bounds args) n with
          | inr w, inr jw, inr xlu =>
              match int_array (a_maxiter args - 1) with
              | inr majiter =>
                  (calls ++ [CallPrepare K x],
                   Ret (Prepared
                          (Problem cs new_bounds (Nat.max 1 m) n m meq mieq
                                   (fst xlu) (snd xlu) (a_ftol args))
                          _meq_cv _mieq_cv x w jw majiter))
              | inl e => (calls ++ [CallPrepare K x], Raise e)
              end
          | inl e, _, _ => (calls, Raise e)
          | inr _, inl e, _ => (calls, Raise e)
          | inr _, inr _, inl e => (calls, Raise e)
          end
      end
  end.
Proof.
  unfold prepare. cbv zeta.
  destruct (Np.clip _ _) as [e|x]; [reflexivity|].
  destruct (triage_ _ _) as [e|cs]; [reflexivity|].
  rewrite !bind_lift_inr, !residual_dims_eq, !bind_pair. simpl fst. simpl snd.
  rewrite map_app.
  destruct (Np.zerosZ (len_w _ _ _)) as [e|w];
    [rewrite bind_lift_inl; simpl; now rewrite !app_nil_r|].
  rewrite bind_lift_inr.
  destruct (Np.zerosZ (len_jw _ _ _)) as [e|jw];
    [rewrite bind_lift_inl; simpl; now rewrite !app_nil_r|].
  rewrite bind_lift_inr.
  destruct (decompose_bounds _ _) as [e|xlu];
    [rewrite bind_lift_inl; simpl; now rewrite !app_nil_r|].
  rewrite bind_lift_inr.
  destruct (int_array _) as [e|majiter]; simpl;
    rewrite ?app_nil_r, <- ?app_assoc; reflexivity.
Qed.


Lemma prepare_Ret_inv (args : arguments Args) t p :
  prepare_ args = (t, Ret p) ->
  exists x cs,
    Np.clip (a_x0 args) (new_bounds_of (a_bounds args)) = inr x /\
    triage_ (new_bounds_of (a_bounds args)) (a_constraints args) = inr cs /\
    t = map (fun _ => CallConFun K x) (cons_eq cs ++ cons_ineq cs) ++ [CallPrepare K x] /\
    pr_x p = x /\
    p_cons (pr_problem p) = cs /\
    p_new_bounds (pr_problem p) = new_bounds_of (a_bounds args) /\
    pr_meq_cv p = map (dim_of x) (cons_eq cs) /\
    pr_mieq_cv p = map (dim_of x) (cons_ineq cs) /\
    p_n (pr_problem p) = length x /\
    p_meq (pr_problem p) = sum_nat (pr_meq_cv p) /\
    p_mieq (pr_problem p) = sum_nat (pr_mieq_cv p) /\
    p_m (pr_problem p) = (sum_nat (pr_meq_cv p) + sum_nat (pr_mieq_cv p))%nat /\
    p_la (pr_problem p) = Nat.max 1 (p_m (pr_problem p)) /\
    Np.zerosZ (len_w (Z.of_nat (p_n (pr_problem p)))
                     (Z.of_nat (p_m (pr_problem p)))
                     (Z.of_nat (p_meq (pr_problem p)))) = inr (pr_w p) /\
    decompose_bounds (a_bounds args) (length x)
      = inr (p_xl (pr_problem p), p_xu (pr_problem p)) /\
    pr_majiter p = a_maxiter args - 1.
Proof.
  rewrite prepare_eq. cbv zeta.
  destruct (Np.clip _ _) as [e|x]; [discriminate|].
  destruct (triage_ _ _) as [e|cs]; [discriminate|].
  destruct (Np.zerosZ (len_w _ _ _)) as [e|w] eqn:Ew; [discriminate|].
  destruct (Np.zerosZ (len_jw _ _ _)) as [e|jw]; [discriminate|].
  destruct (decompose_bounds _ _) as [e|[xl xu]] eqn:Eb; [discriminate|].
  destruct (int_array _) as [e|majiter] eqn:Ei; [discriminate|].
  intros H. injection H as <- <-. exists x, cs. simpl.
  repeat split; try reflexivity; try assumption.
  unfold int_array in Ei.
  destruct (andb _ _); congruence.
Qed.

Lemma prepare_points (args : arguments Args) :
  Forall (fun ev => exists x,
            Np.clip (a_x0 args) (new_bounds_of (a_bounds args)) = inr x /\
            event_point ev = Some x)
         (fst (prepare_ args)).
Proof.
  rewrite prepare_eq. cbv zeta.
  destruct (Np.clip _ _) as [e|x]; [constructor|].
  destruct (triage_ _ _) as [e|cs]; [constructor|].
  assert (Hc : Forall (fun ev : event K => exists x0 : list float,
                         @inr exn _ x = inr x0 /\ event_point ev = Some x0)
                      (map (fun _ => CallConFun K x) (cons_eq cs ++ cons_ineq cs))).
  { apply Forall_forall. intros ev Hev. apply in_map_iff in Hev.
    destruct Hev as (c & <- & _). now exists x. }
  assert (Hp : Forall (fun ev : event K => exists x0 : list float,
                         @inr exn _ x = inr x0 /\ event_point ev = Some x0)
                      (map (fun _ => CallConFun K x) (cons_eq cs ++ cons_ineq cs)
                       ++ [CallPrepare K x])).
  { apply Forall_app. split; [exact Hc|]. constructor; [|constructor].
    now exists x. }
  destruct (Np.zerosZ (len_w _ _ _)); [exact Hc|].
  destruct (Np.zerosZ (len_jw _ _ _)); [exact Hc|].
  destruct (decompose_bounds _ _); [exact Hc|].
  destruct (int_array _); exact Hp.
Qed.

Local Abbreviation priming_ := (@priming K).

Lemma prime_eq (p : prepared Args) :
  let pb := pr_problem p in
  let x := pr_x p in
  prime_ p =
  match _clip_x_for_func sf_fun (p_new_bounds pb) x with
  | inl e => ([CallFun K x], Raise e)
  | inr fx =>
      match _clip_x_for_func sf_grad (p_new_bounds pb) x with
      | inl e => ([CallFun K x; CallGrad K x], Raise e)
      | inr g =>
          match _eval_con_normals x (p_cons pb) (p_la pb) (p_n pb) (p_m pb)
                                  (p_meq pb) (p_mieq pb) with
          | inl e => (priming_ x, Raise e)
          | inr a =>
              (priming_ x,
               Ret (State (Cells x (_eval_constraint x (p_cons pb))
                                 (g ++ [zero]) a (pr_majiter p) 0
                                 (pr_w p) (pr_jw p) 0 K0)
                          fx 0))
          end
      end
  end.
Proof.
  cbv zeta. unfold priming, prime, wrapped_fun, wrapped_grad, eval_constraint,
            eval_con_normals.
  destruct (_clip_x_for_func sf_fun _ _) as [e|fx]; [reflexivity|].
  destruct (_clip_x_for_func sf_grad _ _) as [e|g]; [reflexivity|].
  destruct (_eval_con_normals _ _ _ _ _ _ _) as [e|a]; reflexivity.
Qed.

Lemma prime_points (p : prepared Args) :
  Forall (fun ev => event_point ev = Some (pr_x p)) (fst (prime_ p)).
Proof.
  rewrite prime_eq. cbv zeta. unfold priming.
  destruct (_clip_x_for_func sf_fun _ _);
    [|destruct (_clip_x_for_func sf_grad _ _);
      [|destruct (_eval_con_normals _ _ _ _ _ _ _)]];
    simpl; repeat constructor.
Qed.

Lemma prime_Ret_inv (p : prepared Args) t st :
  prime_ p = (t, Ret st) ->
  t = priming_ (pr_x p) /\
  s_x (st_cells st) = pr_x p /\
  s_mode (st_cells st) = 0 /\
  s_majiter (st_cells st) = pr_majiter p /\
  s_w (st_cells st) = pr_w p /\
  s_n1 (st_cells st) = 0 /\
  st_majiter_prev st = 0.
Proof.
  rewrite prime_eq. cbv zeta.
  destruct (_clip_x_for_func sf_fun _ _); [discriminate|].
  destruct (_clip_x_for_func sf_grad _ _); [discriminate|].
  destruct (_eval_con_normals _ _ _ _ _ _ _); [discriminate|].
  intros H. injection H as <- <-. simpl. repeat split; reflexivity.
Qed.

Lemma finish_trace (p : prepared Args) (st : state K) : fst (finish p st) = [].
Proof. unfold finish. now destruct (exit_modes _). Qed.

(** One turn of the loop, stage by stage. *)
Lemma loop_eq (pb : problem Args) (fuel : nat) (st : state K) :
  loop_ pb (S fuel) st =
  bind (emit (CallKernel (st_cells st)))
       (fun _ =>
          bind (on_mode_1 sf_fun pb
                  (State (call_slsqp slsqp pb (st_fx st) (st_cells st)) (st_fx st)
                         (st_majiter_prev st)))
               (fun st1 =>
                  bind (on_mode_m1 sf_grad pb st1)
                       (fun st2 =>
                          if negb (Z.abs (s_mode (st_cells st2)) =? 1)
                          then ret K st2
                          else loop_ pb fuel
                                 (State (st_cells st2) (st_fx st2)
                                        (s_majiter (st_cells st2)))))).
Proof. reflexivity. Qed.

Lemma loop_head (pb : problem Args) (fuel : nat) (st : state K) :
  before_kernel (fst (loop_ pb fuel st)) = [] /\
  first_kernel (fst (loop_ pb fuel st))
  = match fuel with O => None | S _ => Some (st_cells st) end.
Proof.
  destruct fuel as [|fuel]; [now split|].
  rewrite loop_eq, bind_emit. now split.
Qed.


Local Abbreviation protocol_ := (protocol sf_fun sf_grad slsqp).

(** One turn of the loop, by the mode the kernel leaves. *)
Lemma loop_step (pb : problem Args) (fuel : nat) (st : state K) :
  let k := call_slsqp slsqp pb (st_fx st) (st_cells st) in
  let x := s_x k in
  loop_ pb (S fuel) st =
  if s_mode k =? 1 then
    match _clip_x_for_func sf_fun (p_new_bounds pb) x with
    | inl e => ([CallKernel (st_cells st); CallFun K x], Raise e)
    | inr fx =>
        let r := loop_ pb fuel
                   (State (set_c k (_eval_constraint x (p_cons pb))) fx
                          (s_majiter k)) in
        (CallKernel (st_cells st) :: CallFun K x :: CallConstraint K x
           :: fst r, snd r)
    end
  else if s_mode k =? -1 then
    match _clip_x_for_func sf_grad (p_new_bounds pb) x with
    | inl e => ([CallKernel (st_cells st); CallGrad K x], Raise e)
    | inr g =>
        match _eval_con_normals x (p_cons pb) (p_la pb) (p_n pb) (p_m pb)
                                (p_meq pb) (p_mieq pb) with
        | inl e =>
            ([CallKernel (st_cells st); CallGrad K x; CallNormals K x],
             Raise e)
        | inr a =>
            let r := loop_ pb fuel
                       (State (set_g_a k (g ++ [zero]) a) (st_fx st)
                              (s_majiter k)) in
            (CallKernel (st_cells st) :: CallGrad K x :: CallNormals K x
               :: fst r, snd r)
        end
    end
  else ([CallKernel (st_cells st)],
        Ret (State k (st_fx st) (st_majiter_prev st))).
Proof.
  intros k x. rewrite loop_eq. fold k. subst x. clearbody k.
  unfold on_mode_1, on_mode_m1, wrapped_fun, wrapped_grad, eval_constraint,
    eval_con_normals.
  simpl st_cells.
  destruct (s_mode k =? 1) eqn:M1.
  - apply Z.eqb_eq in M1.
    destruct (_clip_x_for_func sf_fun _ _) as [e|fx]; [reflexivity|].
    simpl. rewrite M1. simpl. rewrite M1. simpl.
    now destruct (loop_ pb fuel _).
  - simpl. destruct (s_mode k =? -1) eqn:M2.
    + apply Z.eqb_eq in M2.
      destruct (_clip_x_for_func sf_grad _ _) as [e|g]; [reflexivity|].
      destruct (_eval_con_normals _ _ _ _ _ _ _) as [e|a]; [reflexivity|].
      simpl. rewrite M2. simpl.
      now destruct (loop_ pb fuel _).
    + simpl. apply Z.eqb_neq in M1, M2.
      assert (A : (Z.abs (s_mode k) =? 1) = false) by (apply Z.eqb_neq; lia).
      rewrite A. reflexivity.
Qed.

(** Every run of the loop that returns follows the protocol. *)
Lemma loop_protocol (pb : problem Args) (fuel : nat) :
  forall st t st', loop_ pb fuel st = (t, Ret st') -> protocol_ pb st t st'.
Proof.
  induction fuel as [|fuel IH]; intros st t st' H; [discriminate|].
  rewrite loop_step in H. cbv zeta in H.
  set (k := call_slsqp slsqp pb (st_fx st) (st_cells st)) in *.
  destruct (s_mode k =? 1) eqn:M1.
  - apply Z.eqb_eq in M1.
    destruct (_clip_x_for_func sf_fun _ _) as [e|fx] eqn:Ef; [discriminate|].
    destruct (loop_ pb fuel _) as [t2 r2] eqn:EL. simpl in H.
    injection H as <- ->.
    apply protocol_function with (fx := fx); [exact M1 | exact Ef |].
    apply IH. exact EL.
  - destruct (s_mode k =? -1) eqn:M2.
    + apply Z.eqb_eq in M2.
      destruct (_clip_x_for_func sf_grad _ _) as [e|g] eqn:Eg;
        [discriminate|].
      destruct (_eval_con_normals _ _ _ _ _ _ _) as [e|a] eqn:Ea;
        [discriminate|].
      destruct (loop_ pb fuel _) as [t2 r2] eqn:EL. simpl in H.
      injection H as <- ->.
      apply protocol_gradient with (g := g) (a := a);
        [exact M2 | exact Eg | exact Ea |].
      apply IH. exact EL.
    + apply Z.eqb_neq in M1, M2. injection H as <- <-.
      apply protocol_stop. fold k. lia.
Qed.

(** X14: the loop returns whenever the kernel reaches a terminal mode: a
    trace of the protocol, with every evaluation on the way succeeding, is
    the trace of the loop for some number of turns, with the same final
    state. *)
Lemma protocol_loop (pb : problem Args) st t st' :
  protocol_ pb st t st' -> exists fuel, loop_ pb fuel st = (t, Ret st').
Proof.
  induction 1 as [st k A | st fx t st' k M1 Ef _ [fuel IH]
                  | st g a t st' k M2 Eg Ea _ [fuel IH]].
  - exists 1%nat. rewrite loop_step. cbv zeta. fold k.
    assert (M1 : (s_mode k =? 1) = false) by (apply Z.eqb_neq; lia).
    assert (M2 : (s_mode k =? -1) = false) by (apply Z.eqb_neq; lia).
    now rewrite M1, M2.
  - exists (S fuel). rewrite loop_step. cbv zeta. fold k.
    rewrite M1. simpl (1 =? 1). cbv iota. rewrite Ef, IH. reflexivity.
  - exists (S fuel). rewrite loop_step. cbv zeta. fold k.
    rewrite M2. simpl (-1 =? 1). simpl (-1 =? -1). cbv iota.
    rewrite Eg, Ea, IH. reflexivity.
Qed.

Lemma protocol_final_mode (pb : problem Args) st t st' :
  protocol_ pb st t st' -> Z.abs (s_mode (st_cells st')) <> 1.
Proof. induction 1; simpl; assumption. Qed.


Lemma minimize_trace (fuel : nat) (args : arguments Args) :
  fst (minimize fuel args)
  = fst (prepare_ args)
    ++ match snd (prepare_ args) with
       | Ret p => fst (drive_ fuel p)
       | _ => []
       end.
Proof.
  unfold _minimize_slsqp. rewrite bind_trace. f_equal.
  destruct (snd (prepare_ args)) as [p| |]; try reflexivity.
  rewrite bind_trace.
  destruct (snd (drive_ fuel p)) as [st| |]; rewrite ?finish_trace;
    now rewrite app_nil_r.
Qed.

Lemma drive_trace (fuel : nat) (p : prepared Args) :
  fst (drive_ fuel p)
  = fst (prime_ p)
    ++ match snd (prime_ p) with
       | Ret st => fst (loop_ (pr_problem p) fuel st)
       | _ => []
       end.
Proof. unfold drive. now rewrite bind_trace. Qed.

Lemma points_no_kernel (x : list float) (t : list (event K)) :
  Forall (fun ev => event_point ev = Some x) t ->
  Forall (fun ev => event_point ev <> None) t.
Proof. apply Forall_impl. intros ev H. congruence. Qed.

Lemma prepare_no_kernel (args : arguments Args) :
  Forall (fun ev => event_point ev <> None) (fst (prepare_ args)).
Proof.
  eapply Forall_impl; [|apply prepare_points].
  intros ev (x & _ & H). congruence.
Qed.

(** The calls made before the first kernel call are made at the clipped
    starting point. *)
Lemma evaluations_at_clipped_point (fuel : nat) (args : arguments Args) ev :
  In ev (before_kernel (fst (minimize fuel args))) ->
  exists x,
    Np.clip (a_x0 args) (new_bounds_of (a_bounds args)) = inr x /\
    event_point ev = Some x.
Proof.
  rewrite minimize_trace, before_kernel_app by apply prepare_no_kernel.
  intros H. apply in_app_or in H. destruct H as [H|H].
  - pose proof (prepare_points args) as P.
    rewrite Forall_forall in P. now apply P.
  - destruct (prepare_ args) as [t0 [p| |]] eqn:E; simpl in H;
      try contradiction.
    destruct (prepare_Ret_inv _ E) as (x & cs & Hc & _ & _ & Hx & _).
    exists x. split; [exact Hc|].
    rewrite drive_trace, before_kernel_app in H
      by (eapply points_no_kernel, prime_points).
    apply in_app_or in H. destruct H as [H|H].
    + pose proof (prime_points p) as P. rewrite Forall_forall in P.
      rewrite <- Hx. now apply P.
    + destruct (snd (prime_ p)); simpl in H; try contradiction.
      now rewrite (proj1 (loop_head _ _ _)) in H.
Qed.

(** The cells of the first kernel call are those the priming left. *)
Lemma first_kernel_cells (fuel : nat) (args : arguments Args) k :
  first_kernel (fst (minimize fuel args)) = Some k ->
  exists t0 p t1 st0,
    prepare_ args = (t0, Ret p) /\
    prime_ p = (t1, Ret st0) /\
    k = st_cells st0.
Proof.
  rewrite minimize_trace, first_kernel_app by apply prepare_no_kernel.
  destruct (prepare_ args) as [t0 [p| |]] eqn:E; simpl; try discriminate.
  rewrite drive_trace, first_kernel_app
    by (eapply points_no_kernel, prime_points).
  destruct (prime_ p) as [t1 [st0| |]] eqn:E1; simpl; try discriminate.
  rewrite (proj2 (loop_head _ _ _)).
  destruct fuel; [discriminate|]. intros H. injection H as <-.
  now exists t0, p, t1, st0.
Qed.


(* ------------------------------------------------------------------ *)
(** ** The iteration driver *)
(* ------------------------------------------------------------------ *)

(** C2: a run that gets through its loop made, before the first kernel
    call, the four evaluations of objective, gradient, residuals and
    normals at the starting point, whatever the problem; after that its
    calls are those of the mode-driven protocol: a kernel call, then
    exactly the objective and the residuals when the mode is +1, exactly
    the gradient and the normals when it is -1, and the end of the loop
    exactly when the mode is neither. *)
Theorem mode_driven_protocol
        (fuel : nat) (args : arguments Args) t0 p t st' :
  prepare_ args = (t0, Ret p) ->
  drive_ fuel p = (t, Ret st') ->
  exists st0 t',
    first_kernel t0 = None /\
    prime_ p = (priming_ (pr_x p), Ret st0) /\
    s_mode (st_cells st0) = 0 /\
    protocol_ (pr_problem p) st0 t' st' /\
    Z.abs (s_mode (st_cells st')) <> 1 /\
    t = priming_ (pr_x p) ++ t' /\
    fst (minimize fuel args) = t0 ++ priming_ (pr_x p) ++ t'.
Proof.
  intros Hp Hd. unfold drive in Hd.
  apply bind_Ret_inv in Hd. destruct Hd as (t1 & st0 & t' & H1 & HL & ->).
  destruct (prime_Ret_inv _ H1) as (-> & _ & Hm & _).
  exists st0, t'. repeat split.
  - pose proof (prepare_no_kernel args) as N. rewrite Hp in N. simpl in N.
    rewrite <- (app_nil_r t0). now rewrite first_kernel_app.
  - exact H1.
  - exact Hm.
  - eapply loop_protocol. exact HL.
  - eapply protocol_final_mode, loop_protocol. exact HL.
  - rewrite minimize_trace, Hp. simpl. rewrite drive_trace, H1. simpl.
    rewrite HL. reflexivity.
Qed.

(* ------------------------------------------------------------------ *)
(** ** Problems without constraints *)
(* ------------------------------------------------------------------ *)

Lemma zeros_snoc (n : nat) : Np.zeros n ++ [zero] = Np.zeros (n + 1).
Proof.
  unfold Np.zeros. induction n as [|n IH]; simpl; [reflexivity|].
  now rewrite IH.
Qed.

(** C3: with no equality and no inequality constraint, at every point and
    for every number of variables, the stacked residual is empty and the
    stacked normals are the zero matrix of shape [(1, n + 1)]. *)
Theorem no_constraints_evaluation (x : list float) (n : nat) :
  let cons := Cons (Args:=Args) [] [] in
  let m := 0%nat in
  let la := Nat.max 1 m in
  _eval_constraint x cons = [] /\
  length (_eval_constraint x cons) = 0%nat /\
  exists a,
    _eval_con_normals x cons la n m 0 0 = inr a /\
    Np.shape a = (1, n + 1)%nat /\
    Np.rows a = [Np.zeros (n + 1)] /\
    Forall (Forall (fun v => v = zero)) (Np.rows a).
Proof.
  cbv zeta. repeat split.
  exists (Np.Matrix (n + 1) [Np.zeros (n + 1)]).
  repeat split.
  - unfold _eval_con_normals, stacked, Np.hstack2, Np.zeros2. simpl.
    now rewrite zeros_snoc.
  - constructor; [|constructor]. unfold Np.zeros.
    apply Forall_forall. intros v Hv. now apply repeat_spec in Hv.
Qed.

(** A run without constraints hands the evaluators exactly that problem. *)
Lemma no_constraints_problem (args : arguments Args) t p :
  a_constraints args = Seq [] ->
  prepare_ args = (t, Ret p) ->
  p_cons (pr_problem p) = Cons [] [] /\
  p_m (pr_problem p) = 0%nat /\
  p_meq (pr_problem p) = 0%nat /\
  p_mieq (pr_problem p) = 0%nat /\
  p_la (pr_problem p) = 1%nat /\
  p_n (pr_problem p) = length (pr_x p).
Proof.
  intros Hc Hp.
  destruct (prepare_Ret_inv _ Hp)
    as (x & cs & _ & Ht & _ & Hx & Hcs & _ & He & Hi & Hn & Hmeq & Hmieq
        & Hm & Hla & _).
  rewrite Hc in Ht. unfold triage in Ht. simpl in Ht. injection Ht as <-.
  simpl in He, Hi. rewrite He in *. rewrite Hi in *. simpl in *.
  rewrite Hm in Hla. simpl in Hla. rewrite Hx. now repeat split.
Qed.

(* ------------------------------------------------------------------ *)
(** ** The starting point *)
(* ------------------------------------------------------------------ *)

(** C5: every call made before the first kernel call (residual functions,
    the construction of the objective's evaluator, objective, gradient,
    residuals, normals) is made at the starting point clamped into the
    bounds, component by component; and with [bounds = [(0, 10)]] and
    [x0 = -5] that point is [0], the point of the first objective
    evaluation. *)
Theorem initial_iterate_clamped :
  (forall (fuel : nat) (args : arguments Args) ev,
      In ev (before_kernel (fst (minimize fuel args))) ->
      exists x,
        Np.clip (a_x0 args) (new_bounds_of (a_bounds args)) = inr x /\
        event_point ev = Some x /\
        clamped (a_x0 args) (new_bounds_of (a_bounds args)) x) /\
  (forall (fuel : nat) constraints maxiter ftol ev,
      In ev (before_kernel
               (fst (minimize fuel
                       (MkArguments [of_Z (-5)]
                                    (Some [(Some (of_Z 0), Some (of_Z 10))])
                                    constraints maxiter ftol)))) ->
      event_point ev = Some [zero]) /\
  (forall (fuel : nat) ftol,
      firstn 2 (fst (minimize fuel
                       (MkArguments [of_Z (-5)]
                                    (Some [(Some (of_Z 0), Some (of_Z 10))])
                                    (Seq []) 100 ftol)))
      = [CallPrepare K [zero]; CallFun K [zero]]).
Proof.
  split; [|split].
  - intros fuel args ev H.
    destruct (evaluations_at_clipped_point _ _ _ H) as (x & Hc & Hp).
    exists x. split; [exact Hc | split; [exact Hp | now apply clip_clamped]].
  - intros fuel constraints maxiter ftol ev H.
    destruct (evaluations_at_clipped_point _ _ _ H) as (x & Hc & Hp).
    vm_compute in Hc. injection Hc as <-. exact Hp.
  - intros fuel ftol. rewrite minimize_trace.
    destruct (prepare_ _) as [t0 r] eqn:E. vm_compute in E.
    injection E as <- <-. simpl snd. cbv iota beta.
    rewrite drive_trace.
    destruct (prime_ _) as [t1 r1] eqn:E1. vm_compute in E1.
    injection E1 as <- <-. reflexivity.
Qed.


(* ------------------------------------------------------------------ *)
(** ** Malformed constraint specifications *)
(* ------------------------------------------------------------------ *)

Local Abbreviation triage_one_ := (triage_one no_args approx_derivative).
Local Abbreviation triage_from_ := (triage_from no_args approx_derivative).

(** The triage raises nothing but configuration errors. *)
Lemma triage_one_error nb ic con cs e :
  triage_one_ nb ic con cs = inl e -> ConfigurationError e.
Proof.
  unfold triage_one. destruct con as [|d]; [intros H; now injection H as <-|].
  destruct (d_type d) as [[ty|]|]; try (intros H; now injection H as <-).
  destruct (negb _); [intros H; now injection H as <-|].
  destruct (d_fun d); [|intros H; now injection H as <-].
  destruct (String.eqb _ _); discriminate.
Qed.

Lemma triage_one_malformed nb ic d cs :
  malformed d ->
  exists e, triage_one_ nb ic (Dict d) cs = inl e /\ ConfigurationError e.
Proof.
  intros M.
  destruct (triage_one_ nb ic (Dict d) cs) as [e|cs'] eqn:E.
  - exists e. split; [reflexivity|]. eapply triage_one_error. exact E.
  - exfalso. unfold triage_one in E.
    destruct M as [M|[(ty & M & N1 & N2)|M]].
    + rewrite M in E. discriminate.
    + rewrite M in E. apply String.eqb_neq in N1, N2.
      rewrite N1, N2 in E. discriminate.
    + destruct (d_type d) as [[ty|]|]; try discriminate.
      destruct (negb _); [discriminate|]. rewrite M in E. discriminate.
Qed.

Lemma triage_from_malformed nb (l : list (con_spec Args)) :
  forall ic cs i d,
    nth_error l i = Some (Dict d) -> malformed d ->
    exists e, triage_from_ nb ic l cs = inl e /\ ConfigurationError e.
Proof.
  induction l as [|con l IH]; intros ic cs i d Hn M.
  - destruct i; discriminate.
  - simpl. destruct i as [|i].
    + injection Hn as ->.
      destruct (triage_one_malformed nb ic cs M) as (e & -> & C).
      now exists e.
    + destruct (triage_one_ nb ic con cs) as [e|cs'] eqn:E.
      * exists e. split; [reflexivity|]. eapply triage_one_error. exact E.
      * eapply IH; eassumption.
Qed.

(** C6: when the starting point and the bounds have compatible shapes, a
    constraint specification without a kind, with an unrecognised kind or
    without a residual function makes the run fail with a configuration
    error, and no call at all (no evaluation, no kernel call) is made
    before it. *)
Theorem malformed_constraint_rejected
        (fuel : nat) (args : arguments Args) (x : list float)
        (i : nat) (d : con_dict Args) :
  Np.clip (a_x0 args) (new_bounds_of (a_bounds args)) = inr x ->
  nth_error (as_sequence (a_constraints args)) i = Some (Dict d) ->
  malformed d ->
  exists e,
    minimize fuel args = ([], Raise e) /\ ConfigurationError e.
Proof.
  intros Hc Hn M.
  destruct (triage_from_malformed (new_bounds_of (a_bounds args))
              _ 0%nat (Cons [] []) _ Hn M) as (e & He & C).
  exists e. split; [|exact C].
  unfold _minimize_slsqp. rewrite prepare_eq. cbv zeta. rewrite Hc.
  unfold triage. rewrite He. reflexivity.
Qed.

(** Without an earlier malformed entry, the error names the entry. *)
Lemma first_malformed_error nb ic (d : con_dict Args) l cs :
  malformed d ->
  triage_from_ nb ic (Dict d :: l) cs
  = inl (match d_type d with
         | None => NoTypeDefined ic
         | Some TOther => TypeNotAString
         | Some (TStr ty) =>
             if negb (orb (String.eqb (lower ty) "eq")
                          (String.eqb (lower ty) "ineq"))
             then UnknownType ty else NoFunctionDefined ic
         end).
Proof.
  intros M.
  change (triage_from_ nb ic (Dict d :: l) cs)
    with (match triage_one_ nb ic (Dict d) cs with
          | inl e => inl e
          | inr cs' => triage_from_ nb (S ic) l cs'
          end).
  destruct (triage_one_malformed nb ic cs M) as (e & E & _). rewrite E.
  unfold triage_one in E.
  destruct (d_type d) as [[ty|]|]; try (symmetry; exact E).
  destruct (negb _); [symmetry; exact E|].
  destruct (d_fun d); [|symmetry; exact E].
  destruct (String.eqb _ _); discriminate.
Qed.

(* ------------------------------------------------------------------ *)
(** ** Bounds *)
(* ------------------------------------------------------------------ *)

Lemma decompose_bounds_length (b : list bound) (n : nat) :
  b <> [] -> length b <> n ->
  decompose_bounds (Some b) n = inl BoundsLength.
Proof.
  intros Hb Hl. destruct b as [|p b]; [congruence|].
  unfold decompose_bounds, bnds_of. rewrite length_map.
  apply Nat.eqb_neq in Hl. now rewrite Hl.
Qed.

Lemma decompose_bounds_order (b : list bound) (n i : nat) :
  length b = n -> (i < n)%nat ->
  gtb (fst (nth i (bnds_of b) (nan, nan)))
      (snd (nth i (bnds_of b) (nan, nan))) = true ->
  decompose_bounds (Some b) n
  = inl (LbGtUb (map (fun p : float * float => gtb (fst p) (snd p))
                     (bnds_of b))).
Proof.
  intros Hl Hi Hg. destruct b as [|p b]; [simpl in Hl; lia|].
  unfold decompose_bounds.
  assert (L : length (bnds_of (p :: b)) = n)
    by (unfold bnds_of; now rewrite length_map).
  rewrite L, Nat.eqb_refl. simpl negb. cbv iota.
  assert (E : existsb (fun e : bool => e)
                (map (fun p0 : float * float => gtb (fst p0) (snd p0))
                     (bnds_of (p :: b))) = true).
  { apply existsb_exists.
    exists (gtb (fst (nth i (bnds_of (p :: b)) (nan, nan)))
                (snd (nth i (bnds_of (p :: b)) (nan, nan)))).
    split; [|exact Hg].
    apply in_map_iff. exists (nth i (bnds_of (p :: b)) (nan, nan)).
    split; [reflexivity|]. apply nth_In. lia. }
  now rewrite E.
Qed.

(** X15: the bounds are checked after the residual functions have been
    called: when the check fails, the run ends with its error, each
    registered constraint's residual function has been called once at the
    clipped starting point, nothing else has been evaluated, and the
    kernel has not been called. *)
Lemma bounds_error_before_kernel (fuel : nat) (args : arguments Args)
      (x : list float) (cs : cons_t Args) (w jw : list float) (e : exn) :
  Np.clip (a_x0 args) (new_bounds_of (a_bounds args)) = inr x ->
  triage_ (new_bounds_of (a_bounds args)) (a_constraints args) = inr cs ->
  let meq := sum_nat (map (dim_of x) (cons_eq cs)) in
  let m := (meq + sum_nat (map (dim_of x) (cons_ineq cs)))%nat in
  Np.zerosZ (len_w (Z.of_nat (length x)) (Z.of_nat m) (Z.of_nat meq)) = inr w ->
  Np.zerosZ (len_jw (Z.of_nat (length x)) (Z.of_nat m) (Z.of_nat meq)) = inr jw ->
  decompose_bounds (a_bounds args) (length x) = inl e ->
  minimize fuel args
  = (map (fun _ => CallConFun K x) (cons_eq cs ++ cons_ineq cs), Raise e) /\
  first_kernel (fst (minimize fuel args)) = None.
Proof.
  intros Hc Ht meq m Hw Hjw Hb.
  assert (E : minimize fuel args
              = (map (fun _ => CallConFun K x) (cons_eq cs ++ cons_ineq cs), Raise e)).
  { unfold _minimize_slsqp. rewrite prepare_eq. cbv zeta.
    rewrite Hc, Ht. fold meq. fold m. rewrite Hw, Hjw, Hb. reflexivity. }
  split; [exact E|]. rewrite E. simpl fst.
  rewrite <- (app_nil_r (map _ _)), first_kernel_app; [reflexivity|].
  apply Forall_forall. intros ev Hev. apply in_map_iff in Hev.
  destruct Hev as (c & <- & _). discriminate.
Qed.

(** C7, at the failing input: one variable and two bound pairs. The run
    does not stop at the length check: the clipped iterate has two
    components and the kernel is called on it. *)
Theorem bounds_length_unchecked (fuel : nat) (ftol : float) :
  let args :=
    MkArguments [of_Z (-5)]
                (Some [(Some (of_Z 0), Some (of_Z 10));
                       (Some (of_Z 0), Some (of_Z 10))])
                (Seq []) 100 ftol in
  length (a_x0 args) = 1%nat /\
  option_map (@length bound) (a_bounds args) = Some 2%nat /\
  Np.clip (a_x0 args) (new_bounds_of (a_bounds args)) = inr [zero; zero] /\
  decompose_bounds (a_bounds args) 2
    = inr ([zero; zero], [of_Z 10; of_Z 10]) /\
  exists k,
    first_kernel (fst (minimize (S fuel) args)) = Some k /\
    s_x k = [zero; zero].
Proof.
  cbv zeta. repeat split.
  rewrite minimize_trace.
  rewrite first_kernel_app by apply prepare_no_kernel.
  destruct (prepare_ _) as [t0 r] eqn:E. vm_compute in E.
  injection E as <- <-. simpl snd. cbv iota beta.
  rewrite drive_trace.
  rewrite first_kernel_app by (eapply points_no_kernel, prime_points).
  destruct (prime_ _) as [t1 r1] eqn:E1. vm_compute in E1.
  injection E1 as <- <-. simpl snd. cbv iota beta.
  rewrite (proj2 (loop_head _ _ _)).
  eexists. split; reflexivity.
Qed.


(* ------------------------------------------------------------------ *)
(** ** The result *)
(* ------------------------------------------------------------------ *)

Lemma finish_Ret_inv (p : prepared Args) (st : state K) t res :
  finish p st = (t, Ret res) ->
  t = [] /\
  exit_modes (s_mode (st_cells st)) = Some (r_message res) /\
  r_status res = s_mode (st_cells st) /\
  r_success res = (s_mode (st_cells st) =? 0) /\
  r_x res = s_x (st_cells st) /\
  r_fun res = st_fx st /\
  r_jac res = removelast (s_g (st_cells st)) /\
  r_nit res = s_majiter (st_cells st) /\
  r_kkt res = kkt_multiplier (read_kkt_mult (pr_problem p) (st_cells st))
                             (pr_meq_cv p) (pr_mieq_cv p).
Proof.
  unfold finish. destruct (exit_modes _) as [msg|]; [|discriminate].
  intros H. injection H as <- <-. simpl. repeat split; reflexivity.
Qed.

Lemma minimize_Ret_inv (fuel : nat) (args : arguments Args) tr res :
  minimize fuel args = (tr, Ret res) ->
  exists t0 p t1 st,
    prepare_ args = (t0, Ret p) /\
    drive_ fuel p = (t1, Ret st) /\
    finish p st = ([], Ret res) /\
    tr = t0 ++ t1.
Proof.
  unfold _minimize_slsqp. intros H.
  apply bind_Ret_inv in H. destruct H as (t0 & p & t' & Hp & H & ->).
  apply bind_Ret_inv in H. destruct H as (t1 & st & t2 & Hd & Hf & ->).
  destruct (finish_Ret_inv _ _ Hf) as (-> & _).
  exists t0, p, t1, st. now rewrite app_nil_r.
Qed.

(** C8: a run whose loop ends with a kernel mode between 2 and 9 returns a
    result; the result is not a success, its status is that mode, its
    message is the entry of [exit_modes] for that mode, and it carries the
    last iterate and the last objective value. And every result any run
    returns is a success exactly when its status is 0. *)
Theorem terminal_modes_reported :
  (forall (fuel : nat) (args : arguments Args) t0 p t1 st,
      prepare_ args = (t0, Ret p) ->
      drive_ fuel p = (t1, Ret st) ->
      2 <= s_mode (st_cells st) <= 9 ->
      exists res,
        minimize fuel args = (t0 ++ t1, Ret res) /\
        r_success res = false /\
        r_status res = s_mode (st_cells st) /\
        exit_modes (s_mode (st_cells st)) = Some (r_message res) /\
        r_x res = s_x (st_cells st) /\
        r_fun res = st_fx st) /\
  (forall (fuel : nat) (args : arguments Args) tr res,
      minimize fuel args = (tr, Ret res) ->
      (r_success res = true <-> r_status res = 0) /\
      exit_modes (r_status res) = Some (r_message res)).
Proof.
  split.
  - intros fuel args t0 p t1 st Hp Hd Hm.
    assert (E : exists msg, exit_modes (s_mode (st_cells st)) = Some msg).
    { destruct (s_mode (st_cells st)) as [|q|q]; try lia.
      do 9 (destruct q as [q|q|]; try lia; simpl; try (eexists; reflexivity)). }
    destruct E as (msg & E).
    eexists. split; [|split; [|split; [|split; [|split]]]].
    + unfold _minimize_slsqp. rewrite Hp, bind_pair, Hd, bind_pair.
      unfold finish. rewrite E. simpl. now rewrite app_nil_r.
    + simpl. apply Z.eqb_neq. lia.
    + reflexivity.
    + exact E.
    + reflexivity.
    + reflexivity.
  - intros fuel args tr res H.
    destruct (minimize_Ret_inv _ _ H) as (t0 & p & t1 & st & _ & _ & Hf & _).
    destruct (finish_Ret_inv _ _ Hf) as (_ & Hmsg & Hs & Hsucc & _).
    rewrite Hs, Hsucc. split; [apply Z.eqb_eq | exact Hmsg].
Qed.

(* ------------------------------------------------------------------ *)
(** ** The iteration budget *)
(* ------------------------------------------------------------------ *)

(** C9: the cells handed to the first kernel call hold [maxiter - 1] as
    their major-iteration budget (and mode 0). *)
Theorem iteration_budget (fuel : nat) (args : arguments Args) (k : cells K) :
  first_kernel (fst (minimize fuel args)) = Some k ->
  s_majiter k = a_maxiter args - 1 /\ s_mode k = 0.
Proof.
  intros H.
  destruct (first_kernel_cells _ _ H) as (t0 & p & t1 & st0 & Hp & H1 & ->).
  destruct (prime_Ret_inv _ H1) as (_ & _ & Hm & Hj & _).
  destruct (prepare_Ret_inv _ Hp) as (x & cs & Hrest).
  decompose [and] Hrest. split; [congruence | exact Hm].
Qed.

(* ------------------------------------------------------------------ *)
(** ** One dictionary for a sequence *)
(* ------------------------------------------------------------------ *)

(** C10: a single constraint dictionary is treated as the one-element
    sequence that holds it. *)
Theorem single_constraint_dictionary
        (fuel : nat) (x0 : list float) (bounds : option (list bound))
        (d : con_dict Args) (maxiter : Z) (ftol : float) :
  minimize fuel (MkArguments x0 bounds (OneDict d) maxiter ftol)
  = minimize fuel (MkArguments x0 bounds (Seq [Dict d]) maxiter ftol).
Proof. reflexivity. Qed.

(* ------------------------------------------------------------------ *)
(** ** The multiplier slice *)
(* ------------------------------------------------------------------ *)


(** With more equality residuals than variables plus one the workspace can
    end before [ir + m]: one variable and ten equality residuals give a
    workspace of 19 cells and, with [n1 = 2], a slice of 6 elements. *)
Lemma short_workspace_slice :
  let pb := Problem (Cons (Args:=unit) [] []) [] 10 1 10 10 0 [] [] zero in
  let k := Cells [] [] [] (Np.Matrix 0 []) 0 2
                 (Np.zeros (Z.to_nat (len_w 1 10 10))) [] 2 tt in
  len_w 1 10 10 = 19 /\ length (read_kkt_mult pb k) = 6%nat.
Proof. vm_compute. split; reflexivity. Qed.


(* ------------------------------------------------------------------ *)
(** ** The registry *)
(* ------------------------------------------------------------------ *)

Local Abbreviation entries_ := (entries no_args approx_derivative).
Local Abbreviation well_kinded :=
  (fun con : con_spec Args => orb (has_kind "eq" con) (has_kind "ineq" con)).

Lemma triage_one_kinded nb ic (con : con_spec Args) cs :
  well_kinded con = true ->
  triage_one_ nb ic con cs
  = inr (Cons (cons_eq cs ++ entries_ nb (filter (has_kind "eq") [con]))
              (cons_ineq cs ++ entries_ nb (filter (has_kind "ineq") [con]))).
Proof.
  destruct con as [|d]; [discriminate|].
  unfold triage_one. cbn [filter has_kind].
  destruct (d_type d) as [[ty|]|]; try discriminate.
  destruct (d_fun d) as [f|] eqn:Ef; [|discriminate].
  intros H. rewrite H. simpl negb. cbv iota. cbv zeta.
  destruct (String.eqb (lower ty) "eq") eqn:E1.
  - assert (E2 : String.eqb (lower ty) "ineq" = false).
    { apply String.eqb_eq in E1. now rewrite E1. }
    rewrite E2. unfold entries. simpl. rewrite Ef. simpl.
    now rewrite app_nil_r.
  - simpl in H. rewrite H. unfold entries. simpl. rewrite Ef. simpl.
    now rewrite app_nil_r.
Qed.

Lemma triage_one_success nb ic (con : con_spec Args) cs cs' :
  triage_one_ nb ic con cs = inr cs' -> well_kinded con = true.
Proof.
  destruct con as [|d]; [discriminate|]. unfold triage_one. cbn [has_kind].
  destruct (d_type d) as [[ty|]|]; try discriminate.
  destruct (orb _ _) eqn:E; [|discriminate]. simpl negb. cbv iota.
  destruct (d_fun d); [|discriminate]. intros _. exact E.
Qed.

Lemma triage_from_kinded nb (l : list (con_spec Args)) :
  forall ic cs,
    forallb well_kinded l = true ->
    triage_from_ nb ic l cs
    = inr (Cons (cons_eq cs ++ entries_ nb (filter (has_kind "eq") l))
                (cons_ineq cs ++ entries_ nb (filter (has_kind "ineq") l))).
Proof.
  induction l as [|con l IH]; intros ic cs H.
  - simpl. rewrite !app_nil_r. now destruct cs.
  - simpl in H. apply andb_true_iff in H. destruct H as [Hc Hl].
    change (triage_from_ nb ic (con :: l) cs)
      with (match triage_one_ nb ic con cs with
            | inl e => inl e
            | inr cs' => triage_from_ nb (S ic) l cs'
            end).
    rewrite (@triage_one_kinded nb ic con cs Hc), (IH _ _ Hl).
    cbn [cons_eq cons_ineq]. rewrite <- !app_assoc.
    change (con :: l) with ([con] ++ l).
    rewrite !filter_app. unfold entries. rewrite !flat_map_app.
    reflexivity.
Qed.

Lemma triage_from_success nb (l : list (con_spec Args)) :
  forall ic cs cs',
    triage_from_ nb ic l cs = inr cs' -> forallb well_kinded l = true.
Proof.
  induction l as [|con l IH]; intros ic cs cs' H; [reflexivity|].
  change (triage_from_ nb ic (con :: l) cs)
    with (match triage_one_ nb ic con cs with
          | inl e => inl e
          | inr cs1 => triage_from_ nb (S ic) l cs1
          end) in H.
  destruct (triage_one_ nb ic con cs) as [e|cs1] eqn:E; [discriminate|].
  simpl. rewrite (@triage_one_success _ _ _ _ _ E). simpl. eapply IH. exact H.
Qed.

Lemma entries_kinded_length nb (l : list (con_spec Args)) :
  forallb well_kinded l = true ->
  (length (entries_ nb (filter (has_kind "eq") l))
   + length (entries_ nb (filter (has_kind "ineq") l)) = length l)%nat.
Proof.
  induction l as [|con l IH]; intros H; [reflexivity|].
  simpl in H. apply andb_true_iff in H. destruct H as [Hc Hl].
  specialize (IH Hl). destruct con as [|d]; [discriminate|].
  cbn [filter has_kind]. cbn [has_kind] in Hc.
  destruct (d_type d) as [[ty|]|]; try discriminate.
  destruct (d_fun d) as [f|] eqn:Ef; [|discriminate].
  destruct (String.eqb (lower ty) "eq") eqn:E1.
  - assert (E2 : String.eqb (lower ty) "ineq" = false).
    { apply String.eqb_eq in E1. now rewrite E1. }
    rewrite E2. unfold entries in *. simpl. rewrite Ef. simpl. lia.
  - simpl in Hc. rewrite Hc. unfold entries in *. simpl. rewrite Ef. simpl.
    lia.
Qed.

(** X1: the triage succeeds exactly when every element of the sequence is
    a dictionary with a residual function and a kind that reads ['eq'] or
    ['ineq'] once lowered; it then files each element under its kind, in
    the order of the sequence, none lost and none twice. *)
Theorem registry_partition nb (constraints : constraints_arg Args) :
  let l := as_sequence constraints in
  (forallb well_kinded l = true <->
   exists cs, triage_ nb constraints = inr cs) /\
  (forall cs,
      triage_ nb constraints = inr cs ->
      cons_eq cs = entries_ nb (filter (has_kind "eq") l) /\
      cons_ineq cs = entries_ nb (filter (has_kind "ineq") l) /\
      (length (cons_eq cs) + length (cons_ineq cs) = length l)%nat).
Proof.
  cbv zeta. unfold triage. split; [split|].
  - intros H. eexists. apply triage_from_kinded. exact H.
  - intros (cs & H). eapply triage_from_success. exact H.
  - intros cs H.
    assert (W := @triage_from_success _ _ _ _ _ H).
    rewrite (triage_from_kinded nb _ 0%nat (Cons [] []) W) in H.
    injection H as <-. cbn [cons_eq cons_ineq app]. repeat split.
    now apply entries_kinded_length.
Qed.

Lemma triage_from_prefix nb (pre l : list (con_spec Args)) :
  forall ic cs,
    forallb well_kinded pre = true ->
    exists cs',
      triage_from_ nb ic (pre ++ l) cs
      = triage_from_ nb (ic + length pre) l cs'.
Proof.
  induction pre as [|con pre IH]; intros ic cs H.
  - exists cs. simpl. now rewrite Nat.add_0_r.
  - simpl in H. apply andb_true_iff in H. destruct H as [Hc Hl].
    change (triage_from_ nb ic ((con :: pre) ++ l) cs)
      with (match triage_one_ nb ic con cs with
            | inl e => inl e
            | inr cs1 => triage_from_ nb (S ic) (pre ++ l) cs1
            end).
    rewrite (@triage_one_kinded nb ic con cs Hc).
    destruct (IH (S ic) (Cons (cons_eq cs ++ entries_ nb (filter (has_kind "eq") [con]))
              (cons_ineq cs ++ entries_ nb (filter (has_kind "ineq") [con]))) Hl)
      as (cs' & E).
    exists cs'. rewrite E. simpl length. f_equal. lia.
Qed.

(** X2: the error of the triage names the first offending dictionary: after
    well-formed elements, a dictionary without a kind raises the KeyError
    carrying its position, one with an unknown kind the ValueError carrying
    the kind as written, one without a residual function the ValueError
    carrying its position; what follows it is not looked at. *)
Theorem registry_first_error nb (pre post : list (con_spec Args))
        (d : con_dict Args) :
  forallb well_kinded pre = true ->
  malformed d ->
  triage_ nb (Seq (pre ++ Dict d :: post))
  = inl (match d_type d with
         | None => NoTypeDefined (length pre)
         | Some TOther => TypeNotAString
         | Some (TStr ty) =>
             if negb (orb (String.eqb (lower ty) "eq")
                          (String.eqb (lower ty) "ineq"))
             then UnknownType ty else NoFunctionDefined (length pre)
         end).
Proof.
  intros Hp M. unfold triage. simpl as_sequence.
  destruct (triage_from_prefix nb pre (Dict d :: post) 0%nat (Cons [] []) Hp)
    as (cs' & E).
  rewrite E. simpl Nat.add. now apply first_malformed_error.
Qed.

(* ------------------------------------------------------------------ *)
(** ** Bounds, once more *)
(* ------------------------------------------------------------------ *)

Lemma gtb_irrefl (v : float) : gtb v v = false.
Proof.
  unfold gtb, SFltb. destruct (isnan v) eqn:N.
  - destruct v; try discriminate. reflexivity.
  - now rewrite SFcompare_refl.
Qed.

Lemma gtb_nan_l (v : float) : gtb nan v = false.
Proof. unfold gtb, SFltb. now destruct v. Qed.

Lemma gtb_nan_r (v : float) : gtb v nan = false.
Proof. unfold gtb, SFltb. now destruct v. Qed.

Lemma existsb_forallb_negb {A} (f : A -> bool) (l : list A) :
  existsb (fun e : bool => e) (map f l) = negb (forallb (fun a => negb (f a)) l).
Proof.
  induction l as [|a l IH]; simpl; [reflexivity|].
  rewrite IH. now destruct (f a).
Qed.

Lemma decompose_bounds_eq (p0 : bound) (b0 : list bound) (n : nat) :
  let b := p0 :: b0 in
  decompose_bounds (Some b) n
  = if negb (Nat.eqb (length b) n) then inl BoundsLength
    else if negb (forallb (fun p : float * float =>
                             negb (gtb (fst p) (snd p))) (bnds_of b))
         then inl (LbGtUb (map (fun p : float * float => gtb (fst p) (snd p))
                               (bnds_of b)))
         else inr (map (fun p : float * float => mark_nan (fst p)) (bnds_of b),
                   map (fun p : float * float => mark_nan (snd p)) (bnds_of b)).
Proof.
  cbv zeta. unfold decompose_bounds. cbv zeta.
  replace (length (bnds_of (p0 :: b0))) with (length (p0 :: b0))
    by (symmetry; apply length_map).
  rewrite existsb_forallb_negb. reflexivity.
Qed.

(** X3: for a non-empty list of bound pairs the decomposition returns the
    two arrays exactly when there are [n] pairs and no pair has its lower
    end above its upper end; both arrays then have [n] entries, a finite
    end is passed on as it is and an absent or infinite end as NaN; and a
    list of [n] pairs whose ends are absent or equal is never refused. *)
Theorem bounds_decomposition (b : list bound) (n : nat) :
  b <> [] ->
  let ordered :=
    forallb (fun p : float * float => negb (gtb (fst p) (snd p))) (bnds_of b) in
  ((exists xl xu, decompose_bounds (Some b) n = inr (xl, xu))
   <-> length b = n /\ ordered = true) /\
  (forall xl xu,
      decompose_bounds (Some b) n = inr (xl, xu) ->
      length xl = n /\ length xu = n /\
      forall i l u,
        nth_error b i = Some (l, u) ->
        nth_error xl i
        = Some (match l with
                | Some v => if isfinite v then v else nan
                | None => nan
                end) /\
        nth_error xu i
        = Some (match u with
                | Some v => if isfinite v then v else nan
                | None => nan
                end)) /\
  (length b = n ->
   Forall (fun p : bound => fst p = None \/ snd p = None \/ fst p = snd p) b ->
   ordered = true).
Proof.
  intros Hb ordered. destruct b as [|p0 b0]; [congruence|].
  pose proof (decompose_bounds_eq p0 b0 n) as D. cbv zeta in D.
  fold ordered in D. set (b := p0 :: b0) in *. clearbody b. clear Hb.
  split; [|split].
  - rewrite D. split.
    + intros (xl & xu & H).
      destruct (Nat.eqb (length b) n) eqn:E; [|discriminate].
      apply Nat.eqb_eq in E. simpl in H.
      destruct ordered; [now split | discriminate].
    + intros [E O]. apply Nat.eqb_eq in E. rewrite E, O. simpl.
      now eexists; eexists.
  - intros xl xu H. rewrite D in H.
    destruct (Nat.eqb (length b) n) eqn:E; [|discriminate].
    apply Nat.eqb_eq in E. simpl in H.
    destruct ordered; [|discriminate]. simpl in H. injection H as <- <-.
    unfold bnds_of. rewrite !length_map. repeat split; try exact E.
    + rewrite !map_map, nth_error_map, H. simpl. unfold mark_nan.
      destruct l as [v|]; reflexivity.
    + rewrite !map_map, nth_error_map, H. simpl. unfold mark_nan.
      destruct u as [v|]; reflexivity.
  - intros _ F. subst ordered. apply forallb_forall. intros q Hq.
    unfold bnds_of in Hq. apply in_map_iff in Hq. destruct Hq as (p & <- & Hp).
    rewrite Forall_forall in F. apply negb_true_iff. simpl.
    destruct (F p Hp) as [E|[E|E]].
    + rewrite E. apply gtb_nan_l.
    + rewrite E. apply gtb_nan_r.
    + rewrite E. destruct (snd p); [apply gtb_irrefl | reflexivity].
Qed.

Lemma clip1_unbounded (v : float) : clip1 v ninf inf = v.
Proof. destruct v as [[]|[]| |[] m e]; reflexivity. Qed.

Lemma clip_unbounded (x : list float) : Np.clip x [(ninf, inf)] = inr x.
Proof.
  unfold Np.clip.
  assert (M : map (fun xi => clip1 xi ninf inf) x = x).
  { induction x as [|v x IH]; simpl; [reflexivity|].
    now rewrite clip1_unbounded, IH. }
  destruct (Nat.eqb (length x) (length [(ninf, inf)])) eqn:E.
  - destruct x as [|v [|v' x]]; try discriminate.
    simpl. now rewrite clip1_unbounded.
  - now rewrite M.
Qed.

(** X4: without bounds ([None] or an empty sequence) the starting point is
    used as it is: every call before the first kernel call is made at
    [x0] itself, and the kernel is given two bound arrays of NaN, one
    entry per variable. *)
Theorem unbounded_start (fuel : nat) (args : arguments Args) :
  a_bounds args = None \/ a_bounds args = Some [] ->
  Np.clip (a_x0 args) (new_bounds_of (a_bounds args)) = inr (a_x0 args) /\
  (forall ev,
      In ev (before_kernel (fst (minimize fuel args))) ->
      event_point ev = Some (a_x0 args)) /\
  (forall t p,
      prepare_ args = (t, Ret p) ->
      pr_x p = a_x0 args /\
      p_xl (pr_problem p) = repeat nan (length (a_x0 args)) /\
      p_xu (pr_problem p) = repeat nan (length (a_x0 args))).
Proof.
  intros Hb.
  assert (C : Np.clip (a_x0 args) (new_bounds_of (a_bounds args))
              = inr (a_x0 args)).
  { destruct Hb as [-> | ->]; apply clip_unbounded. }
  split; [exact C|]. split.
  - intros ev H.
    destruct (evaluations_at_clipped_point _ _ _ H) as (x & Hc & Hp).
    congruence.
  - intros t p Hp.
    destruct (prepare_Ret_inv _ Hp)
      as (x & cs & Hc & _ & _ & Hx & _ & _ & _ & _ & _ & _ & _ & _ & _ & _
          & Hd & _).
    assert (X : x = a_x0 args) by congruence.
    rewrite X in Hx, Hd. split; [exact Hx|].
    destruct Hb as [E | E]; rewrite E in Hd; simpl in Hd;
      injection Hd as <- <-; now split.
Qed.

(* ------------------------------------------------------------------ *)
(** ** Allocation of the workspaces *)
(* ------------------------------------------------------------------ *)

Lemma len_w_positive (n m meq : Z) :
  0 <= n -> 0 <= meq -> meq <= m -> meq <= n + 1 -> 0 < len_w n m meq.
Proof.
  intros Hn Hq Hqm Hqn. unfold len_w. cbv zeta.
  assert (0 <= ((n + 1) * n) / 2) by (apply Z.div_pos; nia).
  assert (0 <= (n + 1 - meq + 1) * (m - meq + (n + 1) + (n + 1) + 2)) by nia.
  assert (0 <= (n + 1 + (m - meq + (n + 1) + (n + 1))) * (n + 1 - meq)) by nia.
  assert (0 <= (3 * (n + 1) + m) * (n + 1 + 1)) by nia.
  lia.
Qed.

(** X5: the integer workspace always has at least two cells, so its
    allocation never fails; and with no more equality residuals than
    variables plus one the real workspace has a positive size, so both
    allocations return arrays of zeros of exactly [len_w] and [len_jw]
    cells. *)
Theorem workspace_allocation (n m meq : nat) :
  (meq <= m)%nat ->
  let lw := len_w (Z.of_nat n) (Z.of_nat m) (Z.of_nat meq) in
  let ljw := len_jw (Z.of_nat n) (Z.of_nat m) (Z.of_nat meq) in
  2 <= ljw /\
  Np.zerosZ ljw = inr (Np.zeros (Z.to_nat ljw)) /\
  Z.of_nat (length (Np.zeros (Z.to_nat ljw))) = ljw /\
  ((meq <= n + 1)%nat ->
   0 < lw /\
   Np.zerosZ lw = inr (Np.zeros (Z.to_nat lw)) /\
   Z.of_nat (length (Np.zeros (Z.to_nat lw))) = lw).
Proof.
  intros Hqm lw ljw.
  assert (J : 2 <= ljw) by (subst ljw; unfold len_jw, mineq; cbv zeta; lia).
  split; [exact J|]. split; [|split].
  - unfold Np.zerosZ. destruct (ljw <? 0) eqn:E; [|reflexivity].
    apply Z.ltb_lt in E. lia.
  - unfold Np.zeros. rewrite repeat_length. lia.
  - intros Hqn.
    assert (W : 0 < lw) by (subst lw; apply len_w_positive; lia).
    split; [exact W|]. split.
    + unfold Np.zerosZ. destruct (lw <? 0) eqn:E; [|reflexivity].
      apply Z.ltb_lt in E. lia.
    + unfold Np.zeros. rewrite repeat_length. lia.
Qed.

(** X6: when the sizing formula gives a negative [len_w] (too many
    equality residuals for the variables), the run ends with NumPy's
    ValueError for a negative dimension: each residual function has been
    called once at the clipped starting point, the bounds have not been
    checked, and the kernel has not been called. *)
Theorem negative_workspace_size (fuel : nat) (args : arguments Args)
        (x : list float) (cs : cons_t Args) :
  Np.clip (a_x0 args) (new_bounds_of (a_bounds args)) = inr x ->
  triage_ (new_bounds_of (a_bounds args)) (a_constraints args) = inr cs ->
  let meq := sum_nat (map (dim_of x) (cons_eq cs)) in
  let m := (meq + sum_nat (map (dim_of x) (cons_ineq cs)))%nat in
  len_w (Z.of_nat (length x)) (Z.of_nat m) (Z.of_nat meq) < 0 ->
  minimize fuel args
  = (map (fun _ => CallConFun K x) (cons_eq cs ++ cons_ineq cs),
     Raise NegativeDimensions) /\
  kernel_calls (fst (minimize fuel args)) = [].
Proof.
  intros Hc Ht meq m Hw.
  assert (E : minimize fuel args
              = (map (fun _ => CallConFun K x) (cons_eq cs ++ cons_ineq cs),
                 Raise NegativeDimensions)).
  { unfold _minimize_slsqp. rewrite prepare_eq. cbv zeta.
    rewrite Hc, Ht. fold meq. fold m. unfold Np.zerosZ at 1.
    apply Z.ltb_lt in Hw. rewrite Hw. reflexivity. }
  split; [exact E|]. rewrite E. simpl fst. clear E.
  induction (cons_eq cs ++ cons_ineq cs) as [|c l IH]; [reflexivity|exact IH].
Qed.

(* ------------------------------------------------------------------ *)
(** ** The stacked residuals and normals *)
(* ------------------------------------------------------------------ *)

Local Abbreviation residual_of x :=
  (fun con : constraint Args => Np.atleast_1d (c_fun con x (c_args con))).

Lemma length_concat_map {A} (f : A -> list float) (l : list A) :
  length (concat (map f l)) = sum_nat (map (fun a => length (f a)) l).
Proof.
  induction l as [|a l IH]; simpl; [reflexivity|].
  now rewrite length_app, IH.
Qed.

Lemma eval_constraint_blocks (x : list float) (cs : cons_t Args) :
  _eval_constraint x cs
  = concat (map (residual_of x) (cons_eq cs))
    ++ concat (map (residual_of x) (cons_ineq cs)).
Proof.
  unfold _eval_constraint. cbv zeta.
  destruct (cons_eq cs), (cons_ineq cs); reflexivity.
Qed.

Lemma eval_constraint_length (x : list float) (cs : cons_t Args) :
  length (_eval_constraint x cs)
  = (sum_nat (map (dim_of x) (cons_eq cs))
     + sum_nat (map (dim_of x) (cons_ineq cs)))%nat.
Proof.
  rewrite eval_constraint_blocks, length_app, !length_concat_map.
  reflexivity.
Qed.

(** X7: the stacked residual is the residuals of the equality constraints
    in registration order followed by those of the inequality constraints,
    each made a vector; its length is the total of the residual dimensions
    at that point, and its first [meq] entries are the equality block. *)
Theorem stacked_residual_layout (x : list float) (cs : cons_t Args) :
  let meq := sum_nat (map (residual_dim x) (cons_eq cs)) in
  let mieq := sum_nat (map (residual_dim x) (cons_ineq cs)) in
  _eval_constraint x cs
  = concat (map (residual_of x) (cons_eq cs))
    ++ concat (map (residual_of x) (cons_ineq cs)) /\
  length (_eval_constraint x cs) = (meq + mieq)%nat /\
  firstn meq (_eval_constraint x cs)
  = concat (map (residual_of x) (cons_eq cs)) /\
  skipn meq (_eval_constraint x cs)
  = concat (map (residual_of x) (cons_ineq cs)).
Proof.
  cbv zeta. unfold residual_dim.
  assert (L : length (concat (map (residual_of x) (cons_eq cs)))
              = sum_nat (map (dim_of x) (cons_eq cs)))
    by apply length_concat_map.
  repeat split.
  - apply eval_constraint_blocks.
  - apply eval_constraint_length.
  - rewrite eval_constraint_blocks, <- L, firstn_app, Nat.sub_diag, firstn_all.
    simpl. now rewrite app_nil_r.
  - rewrite eval_constraint_blocks, <- L, skipn_app, Nat.sub_diag, skipn_all.
    reflexivity.
Qed.

Lemma vstack_from_cols (c : nat) (l : list Np.matrix) :
  forall acc a, Np.vstack_from c acc l = inr a ->
                Np.cols a = c /\ Forall (fun b => Np.cols b = c) l.
Proof.
  induction l as [|b l IH]; intros acc a H; simpl in H.
  - injection H as <-. now split.
  - destruct (Nat.eqb (Np.cols b) c) eqn:E; [|discriminate].
    apply Nat.eqb_eq in E. destruct (IH _ _ H) as [Hc Hf].
    split; [exact Hc|]. now constructor.
Qed.

Lemma zip_rows_unit (ra : list (list float)) (la : nat) :
  length ra = la ->
  Np.zip_rows ra (repeat [zero] la) = map (fun r => r ++ [zero]) ra.
Proof.
  revert la. induction ra as [|r ra IH]; intros la H; subst la; simpl.
  - reflexivity.
  - now rewrite IH.
Qed.


Lemma eval_con_normals_rows (x : list float) (cs : cons_t Args)
      (la n m meq mieq : nat) (a : Np.matrix) :
  _eval_con_normals x cs la n m meq mieq = inr a -> Np.nrows a = la.
Proof.
  unfold _eval_con_normals. intros H.
  destruct (stacked x (cons_eq cs) meq n); [discriminate|].
  destruct (stacked x (cons_ineq cs) mieq n); [discriminate|].
  destruct (if Nat.eqb m 0 then _ else _) as [e|a0]; [discriminate|].
  unfold Np.hstack2 in H.
  destruct (Nat.eqb (Np.nrows a0) (Np.nrows (Np.zeros2 la 1))) eqn:En;
    [|discriminate].
  apply Nat.eqb_eq in En.
  assert (R : Np.nrows a0 = la).
  { rewrite En. unfold Np.nrows, Np.zeros2. simpl. apply repeat_length. }
  injection H as <-. unfold Np.nrows, Np.zeros2. simpl Np.rows.
  change (Np.zeros 1) with [zero].
  rewrite (zip_rows_unit _ R), length_map. exact R.
Qed.


(** X9: the cells of the first kernel call are the clipped starting point,
    the stacked residual there with exactly [m] entries, normals with
    exactly [max(1, m)] rows, a gradient ending in 0.0, workspaces of
    [len_w] and [len_jw] cells all zero, and zeroed state cells. *)
Theorem first_kernel_call (fuel : nat) (args : arguments Args) (k : cells K) :
  first_kernel (fst (minimize fuel args)) = Some k ->
  exists x cs,
    Np.clip (a_x0 args) (new_bounds_of (a_bounds args)) = inr x /\
    triage_ (new_bounds_of (a_bounds args)) (a_constraints args) = inr cs /\
    let meq := sum_nat (map (dim_of x) (cons_eq cs)) in
    let m := (meq + sum_nat (map (dim_of x) (cons_ineq cs)))%nat in
    s_x k = x /\
    s_c k = _eval_constraint x cs /\
    length (s_c k) = m /\
    Np.nrows (s_a k) = Nat.max 1 m /\
    (exists g, s_g k = g ++ [zero]) /\
    s_w k = Np.zeros (Z.to_nat (len_w (Z.of_nat (length x)) (Z.of_nat m)
                                      (Z.of_nat meq))) /\
    s_jw k = Np.zeros (Z.to_nat (len_jw (Z.of_nat (length x)) (Z.of_nat m)
                                        (Z.of_nat meq))) /\
    s_n1 k = 0 /\ s_priv k = K0.
Proof.
  intros H.
  destruct (first_kernel_cells _ _ H) as (t0 & p & t1 & st0 & Hp & H1 & ->).
  rewrite prepare_eq in Hp. cbv zeta in Hp.
  destruct (Np.clip _ _) as [e|x]; [discriminate|].
  destruct (triage_ _ _) as [e|cs]; [discriminate|].
  exists x, cs. split; [reflexivity|]. split; [reflexivity|]. cbv zeta.
  set (meq := sum_nat (map (dim_of x) (cons_eq cs))) in *.
  set (m := (meq + sum_nat (map (dim_of x) (cons_ineq cs)))%nat) in *.
  unfold Np.zerosZ in Hp.
  destruct (len_w _ _ _ <? 0); [discriminate|].
  destruct (len_jw _ _ _ <? 0); [discriminate|].
  destruct (decompose_bounds _ _) as [e|xlu]; [discriminate|].
  destruct (int_array _) as [e|majiter]; [discriminate|].
  injection Hp as <- <-.
  rewrite prime_eq in H1. cbv zeta in H1. simpl in H1.
  destruct (_clip_x_for_func sf_fun _ _) as [e|fx]; [discriminate|].
  destruct (_clip_x_for_func sf_grad _ _) as [e|g]; [discriminate|].
  destruct (_eval_con_normals _ _ _ _ _ _ _) as [e|a] eqn:Ea; [discriminate|].
  injection H1 as _ <-. simpl.
  repeat split.
  - apply eval_constraint_length.
  - eapply eval_con_normals_rows. exact Ea.
  - now exists g.
Qed.

(* ------------------------------------------------------------------ *)
(** ** What the driver leaves to the kernel *)
(* ------------------------------------------------------------------ *)

Local Abbreviation kept_chain_ := (kept_chain slsqp).
Local Abbreviation call_ := (call_slsqp slsqp).

Lemma kept_chain_cons (pb : problem Args) (k : cells K) (ks : list (cells K)) :
  (forall k', hd_error ks = Some k' ->
              exists fx, kernel_kept (call_ pb fx k) k') ->
  kept_chain_ pb ks -> kept_chain_ pb (k :: ks).
Proof.
  intros H C. destruct ks as [|k' ks]; simpl; [exact I|].
  split; [apply H; reflexivity | exact C].
Qed.

Lemma last_cons_hd {A} (a : A) (l : list A) (d d' b : A) :
  hd_error l = Some b -> last (a :: l) d = last l d'.
Proof.
  destruct l as [|c l]; [discriminate|]. intros _.
  change (last (a :: c :: l) d) with (last (c :: l) d).
  revert c. induction l as [|e l IH]; intros c; [reflexivity|].
  change (last (c :: e :: l) d) with (last (e :: l) d).
  change (last (c :: e :: l) d') with (last (e :: l) d').
  apply IH.
Qed.

Lemma kernel_kept_refl (k : cells K) : kernel_kept k k.
Proof. unfold kernel_kept. now repeat split. Qed.

(** X10: between two kernel calls the driver writes at most the arrays [c],
    [g] and [a]: the first call receives the cells the loop started with,
    every later call receives the iterate, counters, workspaces and state
    cells exactly as the call before it left them, and the cells of the
    state the loop returns are those the last call left, untouched. *)
Theorem kernel_cells_kept (pb : problem Args) (fuel : nat) :
  forall st,
    let t := fst (loop_ pb fuel st) in
    kept_chain_ pb (kernel_calls t) /\
    hd_error (kernel_calls t)
    = match fuel with O => None | S _ => Some (st_cells st) end /\
    (forall st',
        snd (loop_ pb fuel st) = Ret st' ->
        st_cells st'
        = call_ pb (st_fx st') (last (kernel_calls t) (st_cells st))).
Proof.
  induction fuel as [|fuel IH]; intros st; cbv zeta.
  - simpl. repeat split. intros st' H. discriminate.
  - rewrite loop_step. cbv zeta.
    set (k := call_ pb (st_fx st) (st_cells st)).
    destruct (s_mode k =? 1) eqn:M1.
    + destruct (_clip_x_for_func sf_fun _ _) as [e|fx].
      * simpl. repeat split. intros st' H. discriminate.
      * set (st1 := State (set_c k (_eval_constraint (s_x k) (p_cons pb)))
                          fx (s_majiter k)).
        destruct (IH st1) as (C & Hd & F). cbv zeta in C, Hd, F.
        simpl fst. simpl snd. simpl kernel_calls.
        split; [|split].
        -- apply kept_chain_cons; [|exact C].
           intros k' Hk. rewrite Hd in Hk. destruct fuel; [discriminate|].
           injection Hk as <-. exists (st_fx st). subst st1. simpl.
           unfold kernel_kept. now repeat split.
        -- reflexivity.
        -- intros st' H. rewrite (F st' H).
           destruct fuel as [|fuel']; [discriminate|].
           f_equal. symmetry. eapply last_cons_hd. exact Hd.
    + destruct (s_mode k =? -1) eqn:M2.
      * destruct (_clip_x_for_func sf_grad _ _) as [e|g];
          [simpl; repeat split; intros st' H; discriminate|].
        destruct (_eval_con_normals _ _ _ _ _ _ _) as [e|a];
          [simpl; repeat split; intros st' H; discriminate|].
        set (st1 := State (set_g_a k (g ++ [zero]) a) (st_fx st)
                          (s_majiter k)).
        destruct (IH st1) as (C & Hd & F). cbv zeta in C, Hd, F.
        simpl fst. simpl snd. simpl kernel_calls.
        split; [|split].
        -- apply kept_chain_cons; [|exact C].
           intros k' Hk. rewrite Hd in Hk. destruct fuel; [discriminate|].
           injection Hk as <-. exists (st_fx st). subst st1. simpl.
           unfold kernel_kept. now repeat split.
        -- reflexivity.
        -- intros st' H. rewrite (F st' H).
           destruct fuel as [|fuel']; [discriminate|].
           f_equal. symmetry. eapply last_cons_hd. exact Hd.
      * simpl. repeat split. intros st' H. injection H as <-. reflexivity.
Qed.

(* ------------------------------------------------------------------ *)
(** ** The status of a result *)
(* ------------------------------------------------------------------ *)

Lemma exit_modes_domain (mode : Z) :
  exit_modes mode = None <-> mode < -1 \/ 9 < mode.
Proof.
  split.
  - intros H. destruct mode as [|q|q]; [discriminate| |].
    + right. do 4 (destruct q as [q|q|]; try discriminate; try lia).
    + left. destruct q as [q|q|]; try discriminate; lia.
  - intros [H|H].
    + destruct mode as [|q|q]; try lia.
      destruct q as [q|q|]; try reflexivity; lia.
    + destruct mode as [|q|q]; try lia.
      do 4 (destruct q as [q|q|]; try reflexivity; try lia).
Qed.

Lemma drive_final_mode (fuel : nat) (p : prepared Args) t st :
  drive_ fuel p = (t, Ret st) -> Z.abs (s_mode (st_cells st)) <> 1.
Proof.
  unfold drive. intros H. apply bind_Ret_inv in H.
  destruct H as (t1 & st0 & t' & _ & HL & _).
  eapply protocol_final_mode, loop_protocol. exact HL.
Qed.

(** X11: the status of a returned result is 0 or one of 2 .. 9, never +1 or
    -1 and never a mode without a message; when the loop ends with a
    kernel mode below -1 or above 9 the run does not return a result but
    raises the KeyError of the message lookup, after all its calls. *)
Theorem result_status_domain :
  (forall (fuel : nat) (args : arguments Args) tr res,
      minimize fuel args = (tr, Ret res) ->
      r_status res = 0 \/ 2 <= r_status res <= 9) /\
  (forall (fuel : nat) (args : arguments Args) t0 p t1 st,
      prepare_ args = (t0, Ret p) ->
      drive_ fuel p = (t1, Ret st) ->
      s_mode (st_cells st) < -1 \/ 9 < s_mode (st_cells st) ->
      minimize fuel args
      = (t0 ++ t1, Raise (NoExitMode (s_mode (st_cells st))))).
Proof.
  split.
  - intros fuel args tr res H.
    destruct (minimize_Ret_inv _ _ H) as (t0 & p & t1 & st & _ & Hd & Hf & _).
    destruct (finish_Ret_inv _ _ Hf) as (_ & Hmsg & Hs & _).
    pose proof (drive_final_mode _ _ Hd) as A.
    rewrite Hs.
    assert (D : ~ (s_mode (st_cells st) < -1 \/ 9 < s_mode (st_cells st))).
    { intros C. apply exit_modes_domain in C. congruence. }
    lia.
  - intros fuel args t0 p t1 st Hp Hd Hm.
    apply exit_modes_domain in Hm.
    unfold _minimize_slsqp. rewrite Hp, bind_pair, Hd, bind_pair.
    unfold finish. rewrite Hm. simpl. now rewrite app_nil_r.
Qed.

(* ------------------------------------------------------------------ *)
(** ** The multiplier vectors, whatever the slice *)
(* ------------------------------------------------------------------ *)

Lemma kkt_group_count (k : list float) (cv : list nat) (w_ind : nat) :
  length (fst (kkt_group k w_ind cv)) = length cv.
Proof. now rewrite kkt_group_spans, length_map, <- (length_map (fun b => (snd b - fst b)%nat)), span_bounds_widths. Qed.

Lemma kkt_group_bounded (k : list float) (cv : list nat) (w_ind : nat) :
  Forall2 (fun v d => (length v <= d)%nat) (fst (kkt_group k w_ind cv)) cv.
Proof.
  revert w_ind. induction cv as [|dim cv IH]; intros w_ind; simpl.
  - constructor.
  - specialize (IH (w_ind + dim)%nat).
    destruct (kkt_group k (w_ind + dim) cv) as [r e]. simpl in *.
    constructor; [|exact IH]. rewrite slice_length. lia.
Qed.

(** X12: whatever the length of the slice, the extraction returns one
    vector per equality constraint and one per inequality constraint, none
    longer than its residual dimension, and the vectors put end to end are
    the first elements of the slice, up to the total of the dimensions:
    nothing is read twice or skipped. *)
Theorem kkt_multiplier_prefix
        (_kkt_mult : list float) (_meq_cv _mieq_cv : list nat) :
  let kkt := kkt_multiplier _kkt_mult _meq_cv _mieq_cv in
  length (kkt_eq kkt) = length _meq_cv /\
  length (kkt_ineq kkt) = length _mieq_cv /\
  Forall2 (fun v d => (length v <= d)%nat) (kkt_eq kkt) _meq_cv /\
  Forall2 (fun v d => (length v <= d)%nat) (kkt_ineq kkt) _mieq_cv /\
  concat (kkt_eq kkt ++ kkt_ineq kkt)
  = firstn (sum_nat _meq_cv + sum_nat _mieq_cv) _kkt_mult.
Proof.
  cbv zeta. unfold kkt_multiplier.
  pose proof (kkt_group_end _kkt_mult _meq_cv 0) as He.
  pose proof (kkt_group_count _kkt_mult _meq_cv 0) as Hn.
  pose proof (kkt_group_bounded _kkt_mult _meq_cv 0) as Hb.
  pose proof (kkt_group_concat _kkt_mult _meq_cv 0) as Hc.
  destruct (kkt_group _kkt_mult 0 _meq_cv) as [e w1].
  simpl in He, Hn, Hb, Hc. subst w1.
  pose proof (kkt_group_count _kkt_mult _mieq_cv (sum_nat _meq_cv)) as Hn'.
  pose proof (kkt_group_bounded _kkt_mult _mieq_cv (sum_nat _meq_cv)) as Hb'.
  pose proof (kkt_group_concat _kkt_mult _mieq_cv (sum_nat _meq_cv)) as Hc'.
  destruct (kkt_group _kkt_mult (sum_nat _meq_cv) _mieq_cv) as [i w2].
  simpl in *. repeat split; try assumption.
  rewrite concat_app, Hc, Hc'.
  pose proof (slice_split _kkt_mult 0 (sum_nat _meq_cv) (sum_nat _mieq_cv))
    as Hs.
  simpl in Hs. rewrite Hs. unfold Np.slice. simpl. now rewrite Nat.sub_0_r.
Qed.

(* ------------------------------------------------------------------ *)
(** ** The layout of the stacked normals *)
(* ------------------------------------------------------------------ *)

Lemma vstack_from_rows (c : nat) (l : list Np.matrix) :
  forall acc a, Np.vstack_from c acc l = inr a ->
                Np.rows a = acc ++ concat (map Np.rows l).
Proof.
  induction l as [|b l IH]; intros acc a H; simpl in H.
  - injection H as <-. simpl. now rewrite app_nil_r.
  - destruct (Nat.eqb (Np.cols b) c); [|discriminate].
    rewrite (IH _ _ H). simpl. now rewrite app_assoc.
Qed.

Lemma vstack_rows (l : list Np.matrix) (a : Np.matrix) :
  Np.vstack l = inr a -> Np.rows a = concat (map Np.rows l).
Proof.
  destruct l as [|b l]; [discriminate|]. simpl. apply vstack_from_rows.
Qed.

Lemma stacked_rows (x : list float) (l : list (constraint Args)) (r n : nat)
      (js : list Np.matrix) (a : Np.matrix) :
  (l = [] -> r = 0%nat) ->
  jacobians x l = inr js ->
  stacked x l r n = inr a ->
  Np.rows a = concat (map Np.rows js).
Proof.
  intros Hr Hj Hs. destruct l as [|con l].
  - simpl in Hj, Hs. injection Hj as <-. injection Hs as <-.
    rewrite (Hr eq_refl). reflexivity.
  - unfold stacked in Hs. rewrite Hj in Hs. now apply vstack_rows.
Qed.

(** X13: with at least one residual, the stacked normals are the rows of
    the equality constraints' Jacobians in registration order, then those
    of the inequality constraints', each row followed by 0.0: the order of
    the stacked residual. *)
Theorem stacked_normals_layout (x : list float) (cs : cons_t Args)
        (la n m meq mieq : nat) (js_eq js_ieq : list Np.matrix)
        (a : Np.matrix) :
  m <> 0%nat ->
  (cons_eq cs = [] -> meq = 0%nat) ->
  (cons_ineq cs = [] -> mieq = 0%nat) ->
  jacobians x (cons_eq cs) = inr js_eq ->
  jacobians x (cons_ineq cs) = inr js_ieq ->
  _eval_con_normals x cs la n m meq mieq = inr a ->
  length js_eq = length (cons_eq cs) /\
  length js_ieq = length (cons_ineq cs) /\
  Np.rows a
  = map (fun r => r ++ [zero])
        (concat (map Np.rows js_eq) ++ concat (map Np.rows js_ieq)).
Proof.
  intros Hm He Hi Je Ji H.
  assert (L : forall (l : list (constraint Args)) js,
             jacobians x l = inr js -> length js = length l).
  { induction l as [|con l IH]; intros js Hj; simpl in Hj.
    - now injection Hj as <-.
    - destruct (c_jac con x (c_args con)); [discriminate|].
      destruct (jacobians x l) as [e|js']; [discriminate|].
      injection Hj as <-. simpl. f_equal. now apply IH. }
  split; [now apply L|]. split; [now apply L|].
  unfold _eval_con_normals in H.
  destruct (stacked x (cons_eq cs) meq n) as [e|a_eq] eqn:Eeq; [discriminate|].
  destruct (stacked x (cons_ineq cs) mieq n) as [e|a_ieq] eqn:Eieq;
    [discriminate|].
  apply Nat.eqb_neq in Hm. rewrite Hm in H.
  destruct (Np.vstack [a_eq; a_ieq]) as [e|a0] eqn:Ea; [discriminate|].
  unfold Np.hstack2 in H.
  destruct (Nat.eqb (Np.nrows a0) (Np.nrows (Np.zeros2 la 1))) eqn:En;
    [|discriminate].
  apply Nat.eqb_eq in En.
  assert (R : Np.nrows a0 = la).
  { rewrite En. unfold Np.nrows, Np.zeros2. simpl. apply repeat_length. }
  injection H as <-. unfold Np.zeros2. simpl Np.rows.
  change (Np.zeros 1) with [zero]. rewrite (zip_rows_unit _ R).
  f_equal. rewrite (vstack_rows _ Ea). simpl. rewrite app_nil_r.
  now rewrite (stacked_rows _ _ He Je Eeq), (stacked_rows _ _ Hi Ji Eieq).
Qed.

End Properties.

(* ------------------------------------------------------------------ *)
(** ** The properties on the concrete instance *)
(* ------------------------------------------------------------------ *)

Lemma mode_driven_protocol_witness :
  let p := Demo.prepared_of Demo.clipped_start in
  let t0 := fst (prepare tt unit Demo.approx Demo.clipped_start) in
  let t := fst (drive tt Demo.f Demo.grad_f Demo.kernel 5 p) in
  let st' := Demo.final_of 5 p in
  exists st0 t',
    first_kernel t0 = None /\
    prime tt Demo.f Demo.grad_f p = (priming unit (pr_x p), Ret st0) /\
    s_mode (st_cells st0) = 0 /\
    protocol Demo.f Demo.grad_f Demo.kernel (pr_problem p) st0 t' st' /\
    Z.abs (s_mode (st_cells st')) <> 1 /\
    t = priming unit (pr_x p) ++ t' /\
    fst (Demo.minimize 5 Demo.clipped_start)
    = t0 ++ priming unit (pr_x p) ++ t'.
Proof.
  cbv zeta.
  apply (@mode_driven_protocol
           unit tt unit tt Demo.approx Demo.f Demo.grad_f Demo.kernel
           5%nat Demo.clipped_start
           (fst (prepare tt unit Demo.approx Demo.clipped_start))
           (Demo.prepared_of Demo.clipped_start)
           (fst (drive tt Demo.f Demo.grad_f Demo.kernel 5
                       (Demo.prepared_of Demo.clipped_start)))
           (Demo.final_of 5 (Demo.prepared_of Demo.clipped_start))).
  - vm_compute. reflexivity.
  - vm_compute. reflexivity.
Defined.

Lemma initial_iterate_clamped_witness :
  event_point (CallFun unit [zero]) = Some [zero].
Proof.
  apply (proj1 (proj2 (@initial_iterate_clamped
                         unit tt unit tt Demo.approx Demo.f Demo.grad_f
                         Demo.kernel))
           5%nat (Seq []) 4 zero (CallFun unit [zero])).
  vm_compute. right. left. reflexivity.
Defined.

Lemma malformed_constraint_rejected_witness :
  exists e,
    Demo.minimize 5 Demo.misconfigured = ([], Raise e)
    /\ ConfigurationError e.
Proof.
  apply (@malformed_constraint_rejected
           unit tt unit tt Demo.approx Demo.f Demo.grad_f Demo.kernel
           5%nat Demo.misconfigured [of_Z 3] 1%nat Demo.untyped_con).
  - vm_compute. reflexivity.
  - reflexivity.
  - left. reflexivity.
Defined.

Lemma terminal_modes_reported_witness :
  let p := Demo.prepared_of Demo.exhausted in
  let st := Demo.final_of 5 p in
  exists res,
    Demo.minimize 5 Demo.exhausted
    = (fst (prepare tt unit Demo.approx Demo.exhausted)
         ++ fst (drive tt Demo.f Demo.grad_f Demo.kernel 5 p), Ret res) /\
    r_success res = false /\
    r_status res = s_mode (st_cells st) /\
    exit_modes (s_mode (st_cells st)) = Some (r_message res) /\
    r_x res = s_x (st_cells st) /\
    r_fun res = st_fx st.
Proof.
  cbv zeta.
  apply (proj1 (@terminal_modes_reported
                  unit tt unit tt Demo.approx Demo.f Demo.grad_f Demo.kernel)
           5%nat Demo.exhausted
           (fst (prepare tt unit Demo.approx Demo.exhausted))
           (Demo.prepared_of Demo.exhausted)
           (fst (drive tt Demo.f Demo.grad_f Demo.kernel 5
                       (Demo.prepared_of Demo.exhausted)))
           (Demo.final_of 5 (Demo.prepared_of Demo.exhausted))).
  - vm_compute. reflexivity.
  - vm_compute. reflexivity.
  - vm_compute. split; discriminate.
Defined.

Lemma iteration_budget_witness :
  s_majiter (Demo.first_cells 5 Demo.clipped_start)
  = a_maxiter Demo.clipped_start - 1
  /\ s_mode (Demo.first_cells 5 Demo.clipped_start) = 0.
Proof.
  apply (@iteration_budget
           unit tt unit tt Demo.approx Demo.f Demo.grad_f Demo.kernel
           5%nat Demo.clipped_start).
  vm_compute. reflexivity.
Defined.

Lemma registry_first_error_witness :
  triage tt Demo.approx [(ninf, inf)]
         (Seq ([Dict Demo.eq_con] ++ Dict Demo.untyped_con :: []))
  = inl (NoTypeDefined 1).
Proof.
  apply (@registry_first_error
           unit tt Demo.approx [(ninf, inf)] [Dict Demo.eq_con] []
           Demo.untyped_con).
  - reflexivity.
  - left. reflexivity.
Defined.

Lemma bounds_decomposition_witness :
  (exists xl xu, decompose_bounds (Some Demo.bounds_0_10) 1 = inr (xl, xu))
  <-> length Demo.bounds_0_10 = 1%nat
      /\ forallb (fun p : float * float => negb (gtb (fst p) (snd p)))
                 (bnds_of Demo.bounds_0_10) = true.
Proof.
  apply (proj1 (@bounds_decomposition Demo.bounds_0_10 1%nat
                  ltac:(discriminate))).
Defined.

Lemma unbounded_start_witness :
  Np.clip (a_x0 Demo.exhausted) (new_bounds_of (a_bounds Demo.exhausted))
  = inr (a_x0 Demo.exhausted) /\
  (forall ev,
      In ev (before_kernel (fst (Demo.minimize 5 Demo.exhausted))) ->
      event_point ev = Some (a_x0 Demo.exhausted)) /\
  (forall t p,
      prepare tt unit Demo.approx Demo.exhausted = (t, Ret p) ->
      pr_x p = a_x0 Demo.exhausted /\
      p_xl (pr_problem p) = repeat nan (length (a_x0 Demo.exhausted)) /\
      p_xu (pr_problem p) = repeat nan (length (a_x0 Demo.exhausted))).
Proof.
  apply (@unbounded_start
           unit tt unit tt Demo.approx Demo.f Demo.grad_f Demo.kernel
           5%nat Demo.exhausted).
  left. reflexivity.
Defined.

Lemma workspace_allocation_witness :
  let lw := len_w 2 3 1 in
  let ljw := len_jw 2 3 1 in
  2 <= ljw /\
  Np.zerosZ ljw = inr (Np.zeros (Z.to_nat ljw)) /\
  Z.of_nat (length (Np.zeros (Z.to_nat ljw))) = ljw /\
  ((1 <= 2 + 1)%nat ->
   0 < lw /\
   Np.zerosZ lw = inr (Np.zeros (Z.to_nat lw)) /\
   Z.of_nat (length (Np.zeros (Z.to_nat lw))) = lw).
Proof. apply (@workspace_allocation 2 3 1). lia. Defined.

Lemma negative_workspace_size_witness :
  Demo.minimize 5 Demo.overdetermined
  = (map (fun _ => CallConFun unit [of_Z 3])
         (cons_eq (Demo.cons_of Demo.overdetermined)
          ++ cons_ineq (Demo.cons_of Demo.overdetermined)),
     Raise NegativeDimensions) /\
  kernel_calls (fst (Demo.minimize 5 Demo.overdetermined)) = [].
Proof.
  apply (@negative_workspace_size
           unit tt unit tt Demo.approx Demo.f Demo.grad_f Demo.kernel
           5%nat Demo.overdetermined [of_Z 3]
           (Demo.cons_of Demo.overdetermined)).
  - vm_compute. reflexivity.
  - reflexivity.
  - vm_compute. reflexivity.
Defined.


Lemma first_kernel_call_witness :
  let k := Demo.first_cells 5 Demo.clipped_start in
  let args := Demo.clipped_start in
  exists x cs,
    Np.clip (a_x0 args) (new_bounds_of (a_bounds args)) = inr x /\
    triage tt Demo.approx (new_bounds_of (a_bounds args)) (a_constraints args)
    = inr cs /\
    let meq := sum_nat (map (residual_dim x) (cons_eq cs)) in
    let m := (meq + sum_nat (map (residual_dim x) (cons_ineq cs)))%nat in
    s_x k = x /\
    s_c k = _eval_constraint x cs /\
    length (s_c k) = m /\
    Np.nrows (s_a k) = Nat.max 1 m /\
    (exists g, s_g k = g ++ [zero]) /\
    s_w k = Np.zeros (Z.to_nat (len_w (Z.of_nat (length x)) (Z.of_nat m)
                                      (Z.of_nat meq))) /\
    s_jw k = Np.zeros (Z.to_nat (len_jw (Z.of_nat (length x)) (Z.of_nat m)
                                        (Z.of_nat meq))) /\
    s_n1 k = 0 /\ s_priv k = tt.
Proof.
  cbv zeta.
  apply (@first_kernel_call
           unit tt unit tt Demo.approx Demo.f Demo.grad_f Demo.kernel
           5%nat Demo.clipped_start).
  vm_compute. reflexivity.
Defined.

Lemma stacked_normals_layout_witness :
  let cs := Demo.cons_of Demo.constrained in
  let a := Demo.normals_of Demo.constrained [of_Z 3; of_Z 4; of_Z 5] in
  let js_eq := [Np.zeros2 1 3] in
  let js_ieq := [Np.zeros2 2 3] in
  length js_eq = length (cons_eq cs) /\
  length js_ieq = length (cons_ineq cs) /\
  Np.rows a
  = map (fun r => r ++ [zero])
        (concat (map Np.rows js_eq) ++ concat (map Np.rows js_ieq)).
Proof.
  cbv zeta.
  apply (@stacked_normals_layout
           unit [of_Z 3; of_Z 4; of_Z 5] (Demo.cons_of Demo.constrained)
           3 3 3 1 2).
  - discriminate.
  - vm_compute. discriminate.
  - vm_compute. discriminate.
  - vm_compute. reflexivity.
  - vm_compute. reflexivity.
  - vm_compute. reflexivity.
Defined.


Lemma protocol_loop_witness :
  let pb := pr_problem Demo.no_prepared in
  let st := State Demo.no_cells zero 0 in
  exists fuel,
    loop Demo.f Demo.grad_f Demo.kernel pb fuel st
    = ([CallKernel (st_cells st)],
       Ret (State (call_slsqp Demo.kernel pb (st_fx st) (st_cells st))
                  (st_fx st) (st_majiter_prev st))).
Proof.
  cbv zeta.
  apply (@protocol_loop unit unit Demo.f Demo.grad_f Demo.kernel).
  apply (@protocol_stop unit unit Demo.f Demo.grad_f Demo.kernel
           (pr_problem Demo.no_prepared) (State Demo.no_cells zero 0)).
  vm_compute. discriminate.
Defined.

Lemma bounds_error_before_kernel_witness :
  let args := Demo.one_bound_two_variables in
  let x := [of_Z 3; of_Z 4] in
  let cs := Demo.cons_of args in
  Demo.minimize 5 args
  = (map (fun _ => CallConFun unit x) (cons_eq cs ++ cons_ineq cs),
     Raise BoundsLength) /\
  first_kernel (fst (Demo.minimize 5 args)) = None.
Proof.
  cbv zeta.
  apply (@bounds_error_before_kernel
           unit tt unit tt Demo.approx Demo.f Demo.grad_f Demo.kernel
           5%nat Demo.one_bound_two_variables [of_Z 3; of_Z 4]
           (Demo.cons_of Demo.one_bound_two_variables)
           (Np.zeros (Z.to_nat (len_w 2 1 1)))
           (Np.zeros (Z.to_nat (len_jw 2 1 1)))
           BoundsLength).
  - vm_compute. reflexivity.
  - reflexivity.
  - vm_compute. reflexivity.
  - vm_compute. reflexivity.
  - vm_compute. reflexivity.
Defined.
